(** * A shell's pipeline compiler and execution engine

    Shallow embedding of [Assignment 2/src]: [command.c] (argument
    builder, chain builder, execution engine), [parser.c] ([parseTokens])
    and [shell_builtins.c] (history store and the [history] builtin).

    Conventions.
    - A [char*] is a [string]; a pointer that may be [NULL] is an [option].
      C strings hold no NUL character, on such strings [String.length] is
      [strlen].
    - [int] descriptors and statuses are [Z]; [argc] and [nSimpleCommands]
      count array cells and are [nat] (they stay far below [INT_MAX]).
    - The heap is ideal: [malloc], [realloc] and [strdup] succeed, so the
      branches that only log an allocation failure are not represented.
    - The operating system is an interface ([Kernel]).  The calls that
      create, duplicate and close descriptors and the texts written to the
      standard output are also recorded, in order, in a ghost [trace].
    - A function that tests its pointer argument against [NULL] first and
      is only ever called on a pointer that is not [NULL] takes the
      pointed value. *)

From stdpp Require Import base list strings pretty.
From Stdlib Require Import ZArith Lia Ascii.

Local Open Scope Z_scope.


(** ** Data model ([command.h], [shell_builtins.h]) *)

(** The [ExecutionFunction] pointers a stage can be bound to: the
    addresses of the five builtins of [commandRegistry] and of
    [executeProcess]. *)
Inductive ExecutionFunction : Type :=
  | ptr_cd | ptr_pwd | ptr_exitShell | ptr_history | ptr_prompt
  | ptr_executeProcess.

Record SimpleCommand : Type := mkSimpleCommand {
  commandName : option string;
  args : list (option string);   (* the cells of the [char**] array; [[]] is [NULL] *)
  argc : nat;
  inputFD : Z;
  outputFD : Z;
  stderrFD : Z;
  noWait : Z;
  execute : option ExecutionFunction;
  pid : Z
}.

Record Command : Type := mkCommand {
  simpleCommands : list SimpleCommand;   (* the [SimpleCommand**] array *)
  nSimpleCommands : nat;
  background : bool;
  chainingOperator : option string
}.

(** The [next]-linked list from [head] to [tail]. *)
Definition CommandChain : Type := list Command.

(** Modelled from the spec: [STDIN_FD], [STDOUT_FD] and [STDERR_FD] are
    macros of the absent [command.h]; they are the interpreter's own
    standard streams. *)
Definition STDIN_FD : Z := 0.
Definition STDOUT_FD : Z := 1.
Definition STDERR_FD : Z := 2.

Definition set_commandName (v : option string) (s : SimpleCommand) : SimpleCommand :=
  mkSimpleCommand v (args s) (argc s) (inputFD s) (outputFD s) (stderrFD s)
                  (noWait s) (execute s) (pid s).
Definition set_args (v : list (option string)) (s : SimpleCommand) : SimpleCommand :=
  mkSimpleCommand (commandName s) v (argc s) (inputFD s) (outputFD s) (stderrFD s)
                  (noWait s) (execute s) (pid s).
Definition set_argc (v : nat) (s : SimpleCommand) : SimpleCommand :=
  mkSimpleCommand (commandName s) (args s) v (inputFD s) (outputFD s) (stderrFD s)
                  (noWait s) (execute s) (pid s).
Definition set_inputFD (v : Z) (s : SimpleCommand) : SimpleCommand :=
  mkSimpleCommand (commandName s) (args s) (argc s) v (outputFD s) (stderrFD s)
                  (noWait s) (execute s) (pid s).
Definition set_outputFD (v : Z) (s : SimpleCommand) : SimpleCommand :=
  mkSimpleCommand (commandName s) (args s) (argc s) (inputFD s) v (stderrFD s)
                  (noWait s) (execute s) (pid s).
Definition set_stderrFD (v : Z) (s : SimpleCommand) : SimpleCommand :=
  mkSimpleCommand (commandName s) (args s) (argc s) (inputFD s) (outputFD s) v
                  (noWait s) (execute s) (pid s).
Definition set_noWait (v : Z) (s : SimpleCommand) : SimpleCommand :=
  mkSimpleCommand (commandName s) (args s) (argc s) (inputFD s) (outputFD s) (stderrFD s)
                  v (execute s) (pid s).
Definition set_execute (v : option ExecutionFunction) (s : SimpleCommand) : SimpleCommand :=
  mkSimpleCommand (commandName s) (args s) (argc s) (inputFD s) (outputFD s) (stderrFD s)
                  (noWait s) v (pid s).
Definition set_pid (v : Z) (s : SimpleCommand) : SimpleCommand :=
  mkSimpleCommand (commandName s) (args s) (argc s) (inputFD s) (outputFD s) (stderrFD s)
                  (noWait s) (execute s) v.

(** ** Initializers ([command.c], lines 20-69) *)

Definition initSimpleCommand : SimpleCommand :=
  {| commandName := None; args := []; argc := 0;
     inputFD := STDIN_FD; outputFD := STDOUT_FD; stderrFD := STDERR_FD;
     noWait := 0; execute := None; pid := -1 |}.

Definition initCommand : Command :=
  {| simpleCommands := []; nSimpleCommands := 0;
     background := false; chainingOperator := None |}.

Definition initCommandChain : CommandChain := [].

(** ** Setters ([command.c], lines 74-166) *)

(** Modelled from the spec: [COPY] is a macro of the absent [utils.h],
    the duplicate ("duplicated, independently owned") of a string, [NULL]
    for [NULL].  A string value is its own duplicate. *)
Definition COPY (s : option string) : option string := s.

(** [realloc(p, n * sizeof( * ))] on an array of cells: the first cells
    are kept, cells beyond the old block hold [fresh] (both callers
    overwrite every new cell at once). *)
Definition realloc {A} (fresh : A) (cells : list A) (n : nat) : list A :=
  take n (cells ++ replicate n fresh).

Definition addCommandToChain (chain : CommandChain) (command : Command) : CommandChain :=
  chain ++ [command].

Definition addSimpleCommand (command : Command) (simpleCommand : SimpleCommand) : Command :=
  let temp := realloc simpleCommand (simpleCommands command) (nSimpleCommands command + 1) in
  {| simpleCommands := <[nSimpleCommands command := simpleCommand]> temp;
     nSimpleCommands := S (nSimpleCommands command);
     background := background command;
     chainingOperator := chainingOperator command |}.

(** [pushArgs]: grow the array to [argc + 2] cells, store the copy at
    [argc] and [NULL] at [argc + 1], count it, and record the first
    argument as the name.  The status is the [int] the C function
    returns. *)
Definition pushArgs (arg : string) (simpleCommand : SimpleCommand) : Z * SimpleCommand :=
  let temp := realloc None (args simpleCommand) (argc simpleCommand + 2) in
  let cells := <[S (argc simpleCommand) := None]>
                 (<[argc simpleCommand := COPY (Some arg)]> temp) in
  let s1 := set_argc (S (argc simpleCommand)) (set_args cells simpleCommand) in
  let s2 := if decide (argc s1 = 1%nat) then set_commandName (COPY (Some arg)) s1 else s1 in
  (0, s2).

(** ** The history store and the interpreter state ([shell_builtins.h]) *)

Record HistoryList : Type := mkHistoryList {
  nodes : list string;   (* the [HistoryNode] list from [head], oldest first *)
  size : Z
}.

Record ShellState : Type := mkShellState {
  originalStdoutFD : Z;
  originalStdinFD : Z;
  originalStderrFD : Z;
  prompt_buffer : string;
  historyList : HistoryList   (* the field [history] *)
}.

(** ** What the sources do not define

    The token macros, [removeQuotes] and [tokenizeString] come from the
    absent [utils.h]/[parser.h]; they are taken as parameters.  Each macro
    is applied to a non-[NULL] token here; on [NULL] the macros are false
    (they are built on a [token && strcmp(...) == 0] test, as
    [COMPARE_TOKEN] in [parser.c]). *)
Class Utils : Type := {
  IS_CHAINING_OPERATOR : string → bool;
  IS_BACKGROUND : string → bool;
  IS_PIPE : string → bool;
  IS_FILE_OUT_REDIR : string → bool;
  IS_APPEND : string → bool;
  IS_FILE_IN_REDIR : string → bool;
  IS_STDERR_REDIR : string → bool;
  IGNORE : string → bool;
  removeQuotes : string → string;
  tokenizeString : string → ascii → list string;
  MAX_STRING_LENGTH : nat
}.

(** The flag sets [parseTokens] passes to [open(2)]. *)
Inductive OpenFlags : Type :=
  | O_RDONLY
  | O_WRONLY_CREAT_TRUNC
  | O_WRONLY_CREAT_APPEND.

(** The operating system, as far as the interpreter calls it.  [World] is
    everything outside the interpreter's own memory. *)
Class Kernel : Type := {
  World : Type;
  (** [pipe(2)]: [None] for [-1], else [(pipeFD[0], pipeFD[1])]. *)
  sys_pipe : World → option (Z * Z) * World;
  (** [open(2)], the returned descriptor or [-1]. *)
  sys_open : string → OpenFlags → World → Z * World;
  sys_close : Z → World → World;
  sys_dup : Z → World → Z * World;
  sys_dup2 : Z → Z → World → Z * World;
  (** [glob(3)] with [GLOB_NOCHECK | GLOB_TILDE]: [None] for a non-zero
      return, else [gl_pathv]. *)
  sys_glob : string → World → option (list string);
  (** [GLOB_NOCHECK]: a pattern that matches nothing is returned itself,
      so a successful [glob] yields at least one path. *)
  sys_glob_paths : ∀ pattern w gl_pathv,
    sys_glob pattern w = Some gl_pathv → gl_pathv ≠ [];
  (** [fork(2)] seen from the parent: the child's pid or [-1]. *)
  sys_fork : SimpleCommand → World → Z * World;
  (** [waitpid(pid, &status, 0)]: [None] for [-1], else
      [WEXITSTATUS(status)]. *)
  sys_waitpid : Z → World → option Z * World;
  (** [chdir(2)], 0 or [-1]; the path is [NULL] when [HOME] is unset. *)
  sys_chdir : option string → World → Z * World;
  (** [getcwd(3)], [None] for [NULL]. *)
  sys_getcwd : World → option string;
  (** [getenv("HOME")]. *)
  sys_getenv_HOME : World → option string
}.

(** Modelled from the spec: [PIPE_READ_END] and [PIPE_WRITE_END] are
    macros of the absent headers, the indices of a pipe's read end and
    write end in the array [pipe(2)] fills. *)
Definition PIPE_READ_END (pipeFD : Z * Z) : Z := pipeFD.1.
Definition PIPE_WRITE_END (pipeFD : Z * Z) : Z := pipeFD.2.

Inductive Event : Type :=
  | EvPipe (readEnd writeEnd : Z)
  | EvOpen (path : string) (flags : OpenFlags) (fd : Z)
  | EvClose (fd : Z)
  | EvDup (oldfd newfd : Z)
  | EvDup2 (oldfd newfd result : Z)
  | EvPrint (text : string).

Section Interpreter.
Context `{U : Utils} `{K : Kernel}.

Record St : Type := mkSt {
  world : World;
  trace : list Event;
  shell : ShellState
}.

Definition log (e : Event) (w : World) (st : St) : St :=
  {| world := w; trace := trace st ++ [e]; shell := shell st |}.
Definition set_world (w : World) (st : St) : St :=
  {| world := w; trace := trace st; shell := shell st |}.
Definition set_shell (sh : ShellState) (st : St) : St :=
  {| world := world st; trace := trace st; shell := sh |}.

Definition pipe (st : St) : option (Z * Z) * St :=
  match sys_pipe (world st) with
  | (Some pipeFD, w) => (Some pipeFD, log (EvPipe pipeFD.1 pipeFD.2) w st)
  | (None, w) => (None, set_world w st)
  end.

Definition open (path : string) (flags : OpenFlags) (st : St) : Z * St :=
  let '(fd, w) := sys_open path flags (world st) in
  (fd, log (EvOpen path flags fd) w st).

Definition close (fd : Z) (st : St) : St :=
  log (EvClose fd) (sys_close fd (world st)) st.

(** ** The builtin dispatch table ([shell_builtins.c], lines 478-498) *)

Definition commandRegistry : list (string * ExecutionFunction) :=
  [("cd", ptr_cd); ("pwd", ptr_pwd); ("exit", ptr_exitShell);
   ("history", ptr_history); ("prompt", ptr_prompt)].

Fixpoint lookupRegistry (registry : list (string * ExecutionFunction))
    (name : string) : ExecutionFunction :=
  match registry with
  | [] => ptr_executeProcess
  | (n, f) :: registry' =>
      if String.eqb n name then f else lookupRegistry registry' name
  end.

Definition getExecutionFunction (name : string) : ExecutionFunction :=
  lookupRegistry commandRegistry name.

(** ** The parser ([parser.c], lines 13-308) *)

(** [do { fileNameToken = tokens[++i]; } while (IGNORE(fileNameToken));]
    followed by the [for] loop's own increment: [found] receives the file
    name and the tokens after it; [atNull] is the case where the name
    read is the final [NULL] ([open(NULL, ...)] returns [-1]). *)
Section Skip.
Context {R : Type} (found : string → list string → R) (atNull : R).
Fixpoint fileNameToken (tokens : list string) : R :=
  match tokens with
  | [] => atNull
  | t :: tokens' => if IGNORE t then fileNameToken tokens' else found t tokens'
  end.
End Skip.

(** The words one plain token contributes: the loop over [gl_pathv]
    calling [pushArgs]; a failed push stops it. *)
Fixpoint pushAll (paths : list string) (simpleCommand : SimpleCommand)
    : Z * SimpleCommand :=
  match paths with
  | [] => (0, simpleCommand)
  | p :: paths' =>
      let '(r, s) := pushArgs p simpleCommand in
      if decide (r = 0) then pushAll paths' s else (r, s)
  end.

(** Lines 283-298: the last stage is added when it has a name, the
    terminator is copied into the pipeline, the pipeline joins the chain. *)
Definition closeCommand (terminator : option string) (chain : CommandChain)
    (command : Command) (simpleCommand : SimpleCommand) : CommandChain :=
  let command1 :=
    match commandName simpleCommand with
    | Some name =>
        addSimpleCommand command
          (set_execute (Some (getExecutionFunction name)) simpleCommand)
    | None => command
    end in
  let op := COPY terminator in
  let command2 :=
    {| simpleCommands := simpleCommands command1;
       nSimpleCommands := nSimpleCommands command1;
       background :=
         match op with
         | Some t => if IS_BACKGROUND t then true else background command1
         | None => background command1
         end;
       chainingOperator := op |} in
  addCommandToChain chain command2.

(** One run of the [for] loop of line 46 from the token in front, with
    the [while] loop of line 24 around it: on a chaining operator the
    pipeline is closed and, when a token follows, the next iteration of
    the [while] starts with a fresh [Command] and [SimpleCommand].  [None]
    is the [NULL] that every parse error returns.  [tokens] is the array
    from [currentIndexInTokens] on, without its final [NULL].  The branch
    of lines 48-63 is not represented: the loop condition excludes a
    [NULL] token inside the loop. *)
Fixpoint parseFrom (tokens : list string) (chain : CommandChain)
    (command : Command) (simpleCommand : SimpleCommand) (st : St)
    {struct tokens} : option CommandChain * St :=
  match tokens with
  | [] => (Some (closeCommand None chain command simpleCommand), st)
  | t :: rest =>
    if IS_CHAINING_OPERATOR t then
      let chain' := closeCommand (Some t) chain command simpleCommand in
      match rest with
      | [] => (Some chain', st)
      | _ :: _ => parseFrom rest chain' initCommand initSimpleCommand st
      end
    else if IS_PIPE t then
      match commandName simpleCommand with
      | None => (None, st)
      | Some name =>
        if decide (outputFD simpleCommand ≠ STDOUT_FD) then (None, st)
        else
          match pipe st with
          | (None, st1) => (None, st1)
          | (Some pipeFD, st1) =>
            let s1 := set_outputFD (PIPE_WRITE_END pipeFD) simpleCommand in
            let s2 := set_execute (Some (getExecutionFunction name)) s1 in
            let command' := addSimpleCommand command s2 in
            parseFrom rest chain command'
              (set_inputFD (PIPE_READ_END pipeFD) initSimpleCommand) st1
          end
      end
    else if IS_FILE_OUT_REDIR t then
      match commandName simpleCommand with
      | None => (None, st)
      | Some _ =>
        if decide (outputFD simpleCommand ≠ STDOUT_FD) then (None, st)
        else
          let flags := if IS_APPEND t then O_WRONLY_CREAT_APPEND
                       else O_WRONLY_CREAT_TRUNC in
          fileNameToken
            (fun name rest' =>
               let '(fileFD, st1) := open name flags st in
               if decide (fileFD = -1) then (None, st1)
               else parseFrom rest' chain command
                      (set_outputFD fileFD simpleCommand) st1)
            (None, st) rest
      end
    else if IS_FILE_IN_REDIR t then
      if decide (inputFD simpleCommand ≠ STDIN_FD) then (None, st)
      else
        fileNameToken
          (fun name rest' =>
             let '(fileFD, st1) := open name O_RDONLY st in
             if decide (fileFD = -1) then (None, st1)
             else parseFrom rest' chain command
                    (set_inputFD fileFD simpleCommand) st1)
          (None, st) rest
    else if IS_STDERR_REDIR t then
      if decide (stderrFD simpleCommand ≠ STDERR_FD) then (None, st)
      else
        fileNameToken
          (fun name rest' =>
             let '(fileFD, st1) := open name O_WRONLY_CREAT_TRUNC st in
             if decide (fileFD = -1) then (None, st1)
             else parseFrom rest' chain command
                    (set_stderrFD fileFD simpleCommand) st1)
          (None, st) rest
    else if IGNORE t then
      parseFrom rest chain command simpleCommand st
    else
      match commandName simpleCommand, t with
      | None, String "!" (String c more) =>
        let '(r1, s1) := pushArgs "history" simpleCommand in
        if decide (r1 ≠ 0) then (None, st)
        else
          let '(r2, s2) := pushArgs (String c more) s1 in
          if decide (r2 ≠ 0) then (None, st)
          else parseFrom rest chain command s2 st
      | _, _ =>
        match sys_glob (removeQuotes t) (world st) with
        | None => (None, st)
        | Some gl_pathv =>
          let '(r, s) := pushAll gl_pathv simpleCommand in
          if decide (r ≠ 0) then (None, st)
          else parseFrom rest chain command s st
        end
      end
  end.

Definition parseTokens (tokens : list string) (st : St) : option CommandChain * St :=
  match tokens with
  | [] => (Some initCommandChain, st)
  | _ :: _ => parseFrom tokens initCommandChain initCommand initSimpleCommand st
  end.

End Interpreter.

Arguments St {K}.
Arguments mkSt {K}.

(** ** Calls that may not return

    A call into the interpreter either returns, or the process is gone
    first: [exit], a [NULL] dereference, behaviour C leaves undefined.
    [OutOfFuel] is for the bounded unfolding of re-entrant calls only. *)
Inductive Stop : Type :=
  | ProcessExit (status : Z)
  | NullDereference
  | OutOfBounds
  | Undefined
  | ChildProcess
  | OutOfFuel.

Inductive Run (A : Type) : Type :=
  | Returned (a : A)
  | Stopped (why : Stop).
Arguments Returned {A} a.
Arguments Stopped {A} why.

#[export] Instance run_ret : MRet Run := @Returned.
#[export] Instance run_bind : MBind Run := λ A B f m,
  match m with Returned a => f a | Stopped why => Stopped why end.

(** ** The execution engine ([command.c], lines 171-247) *)

Section Engine.
Context `{U : Utils} `{K : Kernel}.

(** What a call through [simpleCommand->execute] does: the status, the
    stage as the callee leaves it, the state. *)
Definition Runner : Type :=
  ExecutionFunction → SimpleCommand → St → Run (Z * SimpleCommand * St).

Variable invoke : Runner.

(** Lines 238-243. *)
Definition closeDescriptors (s : SimpleCommand) (st : St) : St :=
  let st1 := if decide (inputFD s ≠ STDIN_FD) then close (inputFD s) st else st in
  if decide (outputFD s ≠ STDOUT_FD) then close (outputFD s) st1 else st1.

(** Lines 216-219. *)
Definition markNoWait (command : Command) (s : SimpleCommand) : SimpleCommand :=
  if background command then set_noWait 1 s else s.

Definition set_simpleCommands (l : list SimpleCommand) (c : Command) : Command :=
  {| simpleCommands := l; nSimpleCommands := nSimpleCommands c;
     background := background c; chainingOperator := chainingOperator c |}.

(** The [for] loop of line 212 from index [i], with [n] iterations left.
    The stage is a struct the array points to: what the loop and the
    callee write into it stays in the array. *)
Fixpoint stageLoop (n : nat) (i : nat) (command : Command) (st : St)
    : Run (Z * Command * St) :=
  match n with
  | O => Returned (0, command, st)
  | S n' =>
    match simpleCommands command !! i with
    | None => Stopped OutOfBounds
    | Some s0 =>
      let s := markNoWait command s0 in
      match commandName s with
      | None => Returned (-1, set_simpleCommands (<[i := s]> (simpleCommands command)) command, st)
      | Some _ =>
        match execute s with
        | None => Stopped NullDereference
        | Some f =>
          '(status, s', st1) ← invoke f s st;
          let command' := set_simpleCommands (<[i := s']> (simpleCommands command)) command in
          if decide (status ≠ 0) then Returned (status, command', st1)
          else stageLoop n' (S i) command' (closeDescriptors s' st1)
        end
      end
    end
  end.

Definition executeCommand (command : Command) (st : St) : Run (Z * Command * St) :=
  match simpleCommands command with
  | [] => Returned (-1, command, st)
  | _ :: _ =>
    if decide (nSimpleCommands command = 0%nat) then Returned (-1, command, st)
    else stageLoop (nSimpleCommands command) 0 command st
  end.

(** The [while] loop of line 184. *)
Fixpoint chainLoop (commands : list Command) (lastStatus : Z) (st : St)
    : Run (Z * list Command * St) :=
  match commands with
  | [] => Returned (lastStatus, [], st)
  | command :: next =>
    '(status, command', st1) ← executeCommand command st;
    '(result, next', st2) ← chainLoop next status st1;
    Returned (result, command' :: next', st2)
  end.

Definition executeCommandChain (chain : option CommandChain) (st : St)
    : Run (Z * option CommandChain * St) :=
  match chain with
  | None => Returned (-1, None, st)
  | Some commands =>
    '(lastStatus, commands', st1) ← chainLoop commands 0 st;
    Returned (lastStatus, Some commands', st1)
  end.

End Engine.

(** ** The history store ([shell_builtins.c], lines 24-105) *)

Definition UINT_MODULUS : Z := 2 ^ 32.
Definition INT_MAX : Z := 2 ^ 31 - 1.

Definition add_to_history (list : HistoryList) (command : option string)
    : Z * HistoryList :=
  match command with
  | None => (-1, list)
  | Some c => (0, {| nodes := nodes list ++ [c]; size := size list + 1 |})
  end.

(** The loop of line 61 and the dereference of line 63: [ctr] is an
    [unsigned int]; the loop leaves with [curr] either at the node where
    [ctr == index] or [NULL], and [curr->command] is read in both cases. *)
Fixpoint walk (curr : list string) (ctr index : Z) : Run (option string) :=
  match curr with
  | [] => Stopped NullDereference
  | command :: next =>
      if decide (ctr ≠ index) then walk next ((ctr + 1) mod UINT_MODULUS) index
      else Returned (Some command)
  end.

Definition get_command (list : HistoryList) (index : Z) : Run (option string) :=
  match nodes list with
  | [] => Returned None
  | _ :: _ =>
      if decide (size list < index) then Returned None
      else walk (nodes list) 1 index
  end.

(** The loop of lines 92-102: [strncmp(command, prefix, strlen(prefix))]
    is 0 when [prefix] is a prefix of [command]. *)
Fixpoint lastWithPrefix (curr : list string) (prefix : string)
    (lastCommand : option string) : option string :=
  match curr with
  | [] => lastCommand
  | command :: next =>
      lastWithPrefix next prefix
        (if String.prefix prefix command then Some command else lastCommand)
  end.

Definition find_last_command_with_prefix (list : HistoryList) (prefix : string)
    : option string :=
  match nodes list with
  | [] => None
  | _ :: _ => lastWithPrefix (nodes list) prefix None
  end.

(** ** The builtins ([shell_builtins.c], lines 155-462) *)

Definition newline : string := String (ascii_of_nat 10) EmptyString.

Definition isDigit (c : ascii) : bool :=
  (48 <=? nat_of_ascii c)%nat && (nat_of_ascii c <=? 57)%nat.

(** [strspn(s, "0123456789") == strlen(s)]. *)
Fixpoint allDigits (s : string) : bool :=
  match s with
  | EmptyString => true
  | String c s' => isDigit c && allDigits s'
  end.

Fixpoint decimal (acc : Z) (s : string) : Z :=
  match s with
  | EmptyString => acc
  | String c s' => decimal (10 * acc + (Z.of_nat (nat_of_ascii c) - 48)) s'
  end.

(** [atoi] on a string of digits; C leaves the result undefined when the
    value does not fit an [int]. *)
Definition atoi (s : string) : Run Z :=
  if decide (decimal 0 s ≤ INT_MAX) then Returned (decimal 0 s) else Stopped Undefined.

Definition set_originalStdinFD (v : Z) (sh : ShellState) : ShellState :=
  mkShellState (originalStdoutFD sh) v (originalStderrFD sh) (prompt_buffer sh)
               (historyList sh).
Definition set_originalStdoutFD (v : Z) (sh : ShellState) : ShellState :=
  mkShellState v (originalStdinFD sh) (originalStderrFD sh) (prompt_buffer sh)
               (historyList sh).
Definition set_originalStderrFD (v : Z) (sh : ShellState) : ShellState :=
  mkShellState (originalStdoutFD sh) (originalStdinFD sh) v (prompt_buffer sh)
               (historyList sh).
Definition set_prompt_buffer (v : string) (sh : ShellState) : ShellState :=
  mkShellState (originalStdoutFD sh) (originalStdinFD sh) (originalStderrFD sh) v
               (historyList sh).
Definition set_historyList (v : HistoryList) (sh : ShellState) : ShellState :=
  mkShellState (originalStdoutFD sh) (originalStdinFD sh) (originalStderrFD sh)
               (prompt_buffer sh) v.

Section Builtins.
Context `{U : Utils} `{K : Kernel}.

Definition dup (fd : Z) (st : St) : Z * St :=
  let '(r, w) := sys_dup fd (world st) in (r, log (EvDup fd r) w st).

Definition dup2 (oldfd newfd : Z) (st : St) : Z * St :=
  let '(r, w) := sys_dup2 oldfd newfd (world st) in
  (r, log (EvDup2 oldfd newfd r) w st).

(** [LOG_PRINT], [LOG_ERROR], [LOG_OUT] and [printf]: text written to the
    standard output ([LOG] of [log.h] with [LOG_PRI] or [LOG_ERR]).
    [LOG_DEBUG] writes nothing ([DEBUG] is 0).  Where the C text has
    [strerror(errno)] the model writes [(strerror)]. *)
Definition print (text : string) (st : St) : St :=
  log (EvPrint text) (world st) st.

(** One of the three blocks of [setUpFD]: save the standard stream,
    [dup2] the descriptor onto it, close the descriptor. *)
Definition bindStream (fd std : Z) (save : Z → ShellState → ShellState) (st : St)
    : Z * St :=
  if decide (fd ≠ std) then
    let '(saved, st1) := dup std st in
    let st2 := set_shell (save saved (shell st1)) st1 in
    let '(r, st3) := dup2 fd std st2 in
    if decide (r = -1) then (-1, st3) else (0, close fd st3)
  else (0, st).

Definition setUpFD (inputFD outputFD stderrFD : Z) (st : St) : Z * St :=
  let '(r1, st1) := bindStream inputFD STDIN_FD set_originalStdinFD st in
  if decide (r1 = -1) then (-1, st1)
  else
    let '(r2, st2) := bindStream outputFD STDOUT_FD set_originalStdoutFD st1 in
    if decide (r2 = -1) then (-1, st2)
    else bindStream stderrFD STDERR_FD set_originalStderrFD st2.

(** One of the three blocks of [resetFD]; a failed [dup2] ends the
    interpreter with [exit(1)]. *)
Definition restoreStream (original std : Z) (st : St) : Run St :=
  if decide (original ≠ std) then
    let '(r, st1) := dup2 original std st in
    if decide (r = -1) then Stopped (ProcessExit 1) else Returned st1
  else Returned st.

Definition resetFD (st : St) : Run St :=
  st1 ← restoreStream (originalStdinFD (shell st)) STDIN_FD st;
  st2 ← restoreStream (originalStdoutFD (shell st1)) STDOUT_FD st1;
  restoreStream (originalStderrFD (shell st2)) STDERR_FD st2.

(** [args[1]], read as a string. *)
Definition arg1 (s : SimpleCommand) : Run string :=
  match args s !! 1%nat with
  | Some (Some a) => Returned a
  | Some None => Stopped NullDereference
  | None => Stopped OutOfBounds
  end.

Definition cd (s : SimpleCommand) (st : St) : Run (Z * SimpleCommand * St) :=
  if decide (2 < argc s)%nat then
    Returned (-1, s, print ("cd: Too many arguments" +:+ newline) st)
  else
    path ← (if decide (argc s = 1%nat) then Returned (sys_getenv_HOME (world st))
            else a ← arg1 s; Returned (Some a));
    let '(r, w) := sys_chdir path (world st) in
    if decide (r = -1) then
      Returned (-1, s, print ("cd: (strerror)" +:+ newline) (set_world w st))
    else Returned (0, s, set_world w st).

Definition pwd (s : SimpleCommand) (st : St) : Run (Z * SimpleCommand * St) :=
  if decide (1 < argc s)%nat then
    Returned (-1, s, print ("pwd: Too many arguments" +:+ newline) st)
  else
    match sys_getcwd (world st) with
    | None => Returned (-1, s, print ("pwd: (strerror)" +:+ newline) st)
    | Some dir =>
      let '(r, st1) := setUpFD (inputFD s) (outputFD s) (stderrFD s) st in
      if decide (r ≠ 0) then Returned (-1, s, st1)
      else
        st2 ← resetFD (print (dir +:+ newline) st1);
        Returned (0, s, st2)
    end.

Definition exitShell (s : SimpleCommand) (st : St) : Run (Z * SimpleCommand * St) :=
  if decide (2 < argc s)%nat then
    Returned (-1, s, print ("exit: Too many arguments" +:+ newline) st)
  else
    let st1 := print ("exit" +:+ newline) st in
    if decide (argc s = 1%nat) then Stopped (ProcessExit 0)
    else
      a ← arg1 s;
      if allDigits a then
        exit_status ← atoi a;
        Stopped (ProcessExit exit_status)
      else
        Returned (-1, s, print ("exit: Expects a numerical argument" +:+ newline) st1).

Definition executeProcess (s : SimpleCommand) (st : St)
    : Run (Z * SimpleCommand * St) :=
  let '(child, w) := sys_fork s (world st) in
  let st1 := set_world w st in
  if decide (child = -1) then Returned (-1, s, st1)
  else if decide (child = 0) then Stopped ChildProcess
  else
    let s1 := set_pid child s in
    if decide (noWait s1 = 0) then
      match sys_waitpid child (world st1) with
      | (None, w2) =>
          Returned (-1, s1, print ("waitpid: (strerror)" +:+ newline) (set_world w2 st1))
      | (Some exitStatus, w2) =>
          if decide (exitStatus ≠ 0) then Returned (exitStatus, s1, set_world w2 st1)
          else Returned (0, s1, set_world w2 st1)
      end
    else Returned (0, s1, st1).

Definition prompt (s : SimpleCommand) (st : St) : Run (Z * SimpleCommand * St) :=
  if decide (argc s = 1%nat) then
    Returned (-1, s, print ("prompt: Too few arguments" +:+ newline) st)
  else if decide (2 < argc s)%nat then
    Returned (-1, s, print ("prompt: Too many arguments" +:+ newline) st)
  else
    a ← arg1 s;
    if decide (String.length a < MAX_STRING_LENGTH)%nat then
      Returned (0, s, set_shell (set_prompt_buffer a (shell st)) st)
    else Stopped Undefined.

(** The loop of lines 330-337. *)
Fixpoint printHistory (curr : list string) (i : Z) (st : St) : St :=
  match curr with
  | [] => st
  | command :: next =>
      printHistory next (i + 1)
        (print (pretty i +:+ " " +:+ command +:+ newline) st)
  end.

(** The entry a reference names (lines 343-366): by position when the
    argument is all digits, else the latest entry with that prefix. *)
Definition lookupHistory (list : HistoryList) (a : string) : Run (option string) :=
  if allDigits a then
    idx ← atoi a;
    found ← get_command list (idx mod UINT_MODULUS);
    Returned (COPY found)
  else Returned (COPY (find_last_command_with_prefix list a)).

(** [history]; [invoke] is what the stages of the re-entered line call
    through their [execute] pointers. *)
Definition history (invoke : Runner) (s : SimpleCommand) (st : St)
    : Run (Z * SimpleCommand * St) :=
  if decide (2 < argc s)%nat then
    Returned (-1, s, print ("history: Too many arguments" +:+ newline) st)
  else
    let '(r, st1) := setUpFD (inputFD s) (outputFD s) (stderrFD s) st in
    if decide (r ≠ 0) then Returned (-1, s, st1)
    else if decide (argc s = 1%nat) then
      st2 ← resetFD (printHistory (nodes (historyList (shell st1))) 1 st1);
      Returned (0, s, st2)
    else
      a ← arg1 s;
      input ← lookupHistory (historyList (shell st1)) a;
      match input with
      | None =>
          Returned (-1, s,
            print ((if allDigits a then "history: invalid index"
                    else "history: no matching command found") +:+ newline) st1)
      | Some line =>
          let tokens := tokenizeString line " " in
          let '(commandChain, st2) := parseTokens tokens st1 in
          '(status, _, st3) ← executeCommandChain invoke commandChain st2;
          Returned (0, s, st3)
      end.

(** The call through an [execute] pointer.  [history] re-enters the
    parser and the engine, which call through [execute] again: [fuel]
    bounds the depth of that re-entry. *)
Fixpoint call (fuel : nat) (f : ExecutionFunction) (s : SimpleCommand) (st : St)
    : Run (Z * SimpleCommand * St) :=
  match fuel with
  | O => Stopped OutOfFuel
  | S fuel' =>
    match f with
    | ptr_cd => cd s st
    | ptr_pwd => pwd s st
    | ptr_exitShell => exitShell s st
    | ptr_history => history (call fuel') s st
    | ptr_prompt => prompt s st
    | ptr_executeProcess => executeProcess s st
    end
  end.

(** The body of the loop of [main] (lines 174-197) for one line. *)
Definition runLine (fuel : nat) (input : string) (st : St)
    : Run (Z * option CommandChain * St) :=
  let '(_, list) := add_to_history (historyList (shell st)) (Some input) in
  let st0 := set_shell (set_historyList list (shell st)) st in
  let '(commandChain, st1) := parseTokens (tokenizeString input " ") st0 in
  executeCommandChain (call fuel) commandChain st1.

(** The loop of [main] (lines 154-197) over the lines [getInput]
    returns when a script is read, and [NULL] at the end of the file: an
    empty line is skipped, the line [exit] leaves the loop, any other
    line is run.  [printCommandChain] writes through [LOG_DEBUG] only. *)
Fixpoint mainLoop (fuel : nat) (lines : list string) (st : St) : Run St :=
  match lines with
  | [] => Returned st
  | input :: rest =>
      if decide (input = "") then mainLoop fuel rest st
      else if decide (input = "exit") then Returned st
      else
        '(_, _, st1) ← runLine fuel input st;
        mainLoop fuel rest st1
  end.

End Builtins.

(** ** A reference platform

    One concrete [Utils] and one concrete [Kernel], on which the
    definitions above evaluate. *)
Module Platform.

Definition token_in (l : list string) (t : string) : bool :=
  existsb (String.eqb t) l.

Fixpoint strip (s : string) : string :=
  match s with
  | EmptyString => EmptyString
  | String c s' =>
      if (Ascii.eqb c "'" || Ascii.eqb c (ascii_of_nat 34))%char%bool then strip s'
      else String c (strip s')
  end.

Fixpoint split (delimiter : ascii) (acc : string) (s : string) : list string :=
  match s with
  | EmptyString => [String.rev acc]
  | String c s' =>
      if Ascii.eqb c delimiter then String.rev acc :: split delimiter EmptyString s'
      else split delimiter (String c acc) s'
  end.

(** Modelled from the spec: the lexical classifier of section 4.1 (pipe,
    output/append/input/stderr redirection, chaining and background
    operators, the blank token), quote stripping as "a literal
    content-preserving strip", and the whitespace tokenizer of section
    6; their definitions are in the absent [utils.h] and [utils.c]. *)
#[export] Instance utils : Utils := {|
  IS_CHAINING_OPERATOR := token_in [";"; "&"; "&&"; "||"];
  IS_BACKGROUND := token_in ["&"];
  IS_PIPE := token_in ["|"];
  IS_FILE_OUT_REDIR := token_in [">"; ">>"];
  IS_APPEND := token_in [">>"];
  IS_FILE_IN_REDIR := token_in ["<"];
  IS_STDERR_REDIR := token_in ["2>"];
  IGNORE := token_in [""];
  removeQuotes := strip;
  tokenizeString := fun s delimiter => split delimiter EmptyString s;
  MAX_STRING_LENGTH := 1024
|}.

(** A small deterministic system: the standard streams are open and
    the [n]-th descriptor handed out is [3 + n], a file opens for reading
    when it is listed, every pattern globs to itself, and a child exits
    with status 0 when its program is listed and with 1 otherwise. *)
Record machine : Type := mkMachine {
  handed_out : nat;
  files : list string;
  programs : list string;
  next_pid : Z;
  exited : list (Z * Z);
  cwd : string
}.

Definition next_fd (w : machine) : Z := 3 + Z.of_nat (handed_out w).

Definition hand_out (n : nat) (w : machine) : machine :=
  mkMachine (handed_out w + n) (files w) (programs w) (next_pid w) (exited w) (cwd w).

Definition w_pipe (w : machine) : option (Z * Z) * machine :=
  (Some (next_fd w, next_fd w + 1), hand_out 2 w).

Definition w_open (path : string) (flags : OpenFlags) (w : machine) : Z * machine :=
  match flags with
  | O_RDONLY =>
      if token_in (files w) path then (next_fd w, hand_out 1 w) else (-1, w)
  | _ =>
      (next_fd w,
       mkMachine (handed_out w + 1) (path :: files w) (programs w) (next_pid w)
                 (exited w) (cwd w))
  end.

Definition w_dup (fd : Z) (w : machine) : Z * machine :=
  (next_fd w, hand_out 1 w).

Definition w_fork (s : SimpleCommand) (w : machine) : Z * machine :=
  let status :=
    match commandName s with
    | Some name => if token_in (programs w) name then 0 else 1
    | None => 1
    end in
  (next_pid w,
   mkMachine (handed_out w) (files w) (programs w) (next_pid w + 1)
             ((next_pid w, status) :: exited w) (cwd w)).

Fixpoint status_of (pid : Z) (l : list (Z * Z)) : option Z :=
  match l with
  | [] => None
  | (p, s) :: l' => if Z.eqb p pid then Some s else status_of pid l'
  end.

Definition w_chdir (path : option string) (w : machine) : Z * machine :=
  match path with
  | Some dir =>
      (0, mkMachine (handed_out w) (files w) (programs w) (next_pid w) (exited w) dir)
  | None => (-1, w)
  end.

Lemma w_glob_paths (pattern : string) (w : machine) (gl_pathv : list string) :
  Some [pattern] = Some gl_pathv → gl_pathv ≠ [].
Proof. by intros [= <-]. Qed.

#[export] Instance kernel : Kernel := {|
  World := machine;
  sys_pipe := w_pipe;
  sys_open := w_open;
  sys_close := fun _ w => w;
  sys_dup := w_dup;
  sys_dup2 := fun _ newfd w => (newfd, w);
  sys_glob := fun pattern _ => Some [pattern];
  sys_glob_paths := w_glob_paths;
  sys_fork := w_fork;
  sys_waitpid := fun pid w => (status_of pid (exited w), w);
  sys_chdir := w_chdir;
  sys_getcwd := fun w => Some (cwd w);
  sys_getenv_HOME := fun _ => Some "/home"
|}.

Definition boot (fs : list string) (hist : list string) : St :=
  {| world := (mkMachine 0 fs ["ls"; "wc"; "cat"; "echo"] 100 [] "/" : World);
     trace := [];
     shell := {| originalStdoutFD := STDOUT_FD; originalStdinFD := STDIN_FD;
                 originalStderrFD := STDERR_FD; prompt_buffer := "%";
                 historyList := mkHistoryList hist (Z.of_nat (length hist)) |} |}.

End Platform.

(** ** The argument array

    What [pushArgs] keeps true of a stage. *)

(** A stage as [pushArgs] leaves it: the array is the pushed words
    followed by the [NULL] cell, and the name is the first word. *)
Definition stage_holds (words : list string) (s : SimpleCommand) : Prop :=
  argc s = length words ∧
  commandName s = head words ∧
  args s = match words with [] => [] | _ => (Some <$> words) ++ [None] end.

Lemma realloc_grow {A} (fresh : A) (cells : list A) (n : nat) :
  (length cells ≤ n)%nat →
  realloc fresh cells n = cells ++ replicate (n - length cells) fresh.
Proof.
  intros Hle. unfold realloc.
  rewrite take_app_ge by done.
  by rewrite take_replicate, Nat.min_l by lia.
Qed.

Lemma pushArgs_status arg s : (pushArgs arg s).1 = 0.
Proof. reflexivity. Qed.

Lemma pushArgs_holds words arg s :
  stage_holds words s → stage_holds (words ++ [arg]) (pushArgs arg s).2.
Proof.
  intros (Hc & Hn & Ha). unfold pushArgs, COPY.
  assert (Hcells :
    <[S (argc s) := None]> (<[argc s := Some arg]>
       (realloc None (args s) (argc s + 2))) = (Some <$> words ++ [arg]) ++ [None]).
  { rewrite Hc, Ha. destruct words as [|w ws]; [done|].
    rewrite realloc_grow by (rewrite length_app, length_fmap; simpl; lia).
    rewrite length_app, length_fmap. simpl length.
    replace (S (length ws) + 2 - (S (length ws) + 1))%nat with 1%nat by lia.
    simpl replicate. rewrite <- (assoc_L (++)). simpl.
    f_equal. rewrite fmap_app. simpl.
    rewrite <- (assoc_L (++)).
    replace (length ws) with (length (Some <$> ws) + 0)%nat at 2
      by (rewrite length_fmap; lia).
    replace (length ws) with (length (Some <$> ws) + 0)%nat at 1
      by (rewrite length_fmap; lia).
    rewrite insert_app_r. simpl.
    replace (S (length (Some <$> ws) + 0)) with (length (Some <$> ws) + 1)%nat by lia.
    by rewrite insert_app_r. }
  simpl. case_decide as Hone; simpl in *.
  - repeat split; simpl.
    + rewrite length_app; simpl; lia.
    + destruct words; [done|]. simpl in Hc. rewrite Hc in Hone. lia.
    + rewrite Hcells. by destruct words.
  - repeat split; simpl.
    + rewrite length_app; simpl; lia.
    + destruct words; [simpl in Hc; lia|]. by rewrite Hn.
    + rewrite Hcells. by destruct words.
Qed.

Lemma initSimpleCommand_holds : stage_holds [] initSimpleCommand.
Proof. done. Qed.

(** ** The tokens as grammar items

    The parser reads the token array once, left to right, and decides
    each token by the tests above in their order.  [items] performs that
    reading alone, without building anything: a redirection operator
    takes the blank tokens after it and the file name ([None] when the
    name read is the final [NULL]). *)
Inductive Item : Type :=
  | ITerminator (t : string)
  | IPipe (t : string)
  | IOutput (t : string) (file : option string)
  | IInput (t : string) (file : option string)
  | IStderr (t : string) (file : option string)
  | IBlank (t : string)
  | IWord (t : string).

Section Grammar.
Context `{U : Utils} `{K : Kernel}.

Fixpoint items (tokens : list string) : list Item :=
  match tokens with
  | [] => []
  | t :: rest =>
    if IS_CHAINING_OPERATOR t then ITerminator t :: items rest
    else if IS_PIPE t then IPipe t :: items rest
    else if IS_FILE_OUT_REDIR t then
      fileNameToken (fun name rest' => IOutput t (Some name) :: items rest')
                    [IOutput t None] rest
    else if IS_FILE_IN_REDIR t then
      fileNameToken (fun name rest' => IInput t (Some name) :: items rest')
                    [IInput t None] rest
    else if IS_STDERR_REDIR t then
      fileNameToken (fun name rest' => IStderr t (Some name) :: items rest')
                    [IStderr t None] rest
    else if IGNORE t then IBlank t :: items rest
    else IWord t :: items rest
  end.

(** What a redirection item does: [open] the file and hand the
    descriptor to [bind]; [None] is a parse error. *)
Definition redirect (file : option string) (flags : OpenFlags)
    (bind : Z → SimpleCommand) (st : St) : option SimpleCommand * St :=
  match file with
  | None => (None, st)
  | Some name =>
      let '(fileFD, st1) := open name flags st in
      if decide (fileFD = -1) then (None, st1) else (Some (bind fileFD), st1)
  end.

(** What a word does to the stage: the history rewrite of line 225 or
    quote removal, [glob] and the pushes. *)
Definition word (t : string) (simpleCommand : SimpleCommand) (st : St)
    : option SimpleCommand :=
  match commandName simpleCommand, t with
  | None, String "!" (String c more) =>
    let '(r1, s1) := pushArgs "history" simpleCommand in
    if decide (r1 ≠ 0) then None
    else
      let '(r2, s2) := pushArgs (String c more) s1 in
      if decide (r2 ≠ 0) then None else Some s2
  | _, _ =>
    match sys_glob (removeQuotes t) (world st) with
    | None => None
    | Some gl_pathv =>
      let '(r, s) := pushAll gl_pathv simpleCommand in
      if decide (r ≠ 0) then None else Some s
    end
  end.

(** One item that is not a terminator: the pipeline and the stage under
    construction after it, or [None] for a parse error. *)
Definition stepItem (it : Item) (command : Command)
    (simpleCommand : SimpleCommand) (st : St)
    : option (Command * SimpleCommand) * St :=
  match it with
  | ITerminator _ => (None, st)
  | IPipe _ =>
      match commandName simpleCommand with
      | None => (None, st)
      | Some name =>
        if decide (outputFD simpleCommand ≠ STDOUT_FD) then (None, st)
        else
          match pipe st with
          | (None, st1) => (None, st1)
          | (Some pipeFD, st1) =>
            (Some (addSimpleCommand command
                     (set_execute (Some (getExecutionFunction name))
                        (set_outputFD (PIPE_WRITE_END pipeFD) simpleCommand)),
                   set_inputFD (PIPE_READ_END pipeFD) initSimpleCommand), st1)
          end
      end
  | IOutput t file =>
      match commandName simpleCommand with
      | None => (None, st)
      | Some _ =>
        if decide (outputFD simpleCommand ≠ STDOUT_FD) then (None, st)
        else
          let '(r, st1) :=
            redirect file
              (if IS_APPEND t then O_WRONLY_CREAT_APPEND else O_WRONLY_CREAT_TRUNC)
              (fun fd => set_outputFD fd simpleCommand) st in
          (pair command <$> r, st1)
      end
  | IInput _ file =>
      if decide (inputFD simpleCommand ≠ STDIN_FD) then (None, st)
      else
        let '(r, st1) :=
          redirect file O_RDONLY (fun fd => set_inputFD fd simpleCommand) st in
        (pair command <$> r, st1)
  | IStderr _ file =>
      if decide (stderrFD simpleCommand ≠ STDERR_FD) then (None, st)
      else
        let '(r, st1) :=
          redirect file O_WRONLY_CREAT_TRUNC
            (fun fd => set_stderrFD fd simpleCommand) st in
        (pair command <$> r, st1)
  | IBlank _ => (Some (command, simpleCommand), st)
  | IWord t => (pair command <$> word t simpleCommand st, st)
  end.

(** The parser again, item by item. *)
Fixpoint parseItems (its : list Item) (chain : CommandChain)
    (command : Command) (simpleCommand : SimpleCommand) (st : St)
    : option CommandChain * St :=
  match its with
  | [] => (Some (closeCommand None chain command simpleCommand), st)
  | ITerminator t :: its' =>
      let chain' := closeCommand (Some t) chain command simpleCommand in
      match its' with
      | [] => (Some chain', st)
      | _ :: _ => parseItems its' chain' initCommand initSimpleCommand st
      end
  | it :: its' =>
      match stepItem it command simpleCommand st with
      | (None, st1) => (None, st1)
      | (Some (command', simpleCommand'), st1) =>
          parseItems its' chain command' simpleCommand' st1
      end
  end.

(** The file name a redirection operator reads, and the tokens left
    after it. *)
Definition seekName (tokens : list string) : option (string * list string) :=
  fileNameToken (fun name rest => Some (name, rest)) None tokens.

Lemma fileNameToken_seek {R} (found : string → list string → R) (atNull : R) tokens :
  fileNameToken found atNull tokens =
  match seekName tokens with
  | Some (name, rest) => found name rest
  | None => atNull
  end.
Proof.
  unfold seekName. induction tokens as [|t tokens IH]; simpl; [done|].
  destruct (IGNORE t); [apply IH | done].
Qed.

Lemma seekName_shorter tokens name rest :
  seekName tokens = Some (name, rest) → (length rest < length tokens)%nat.
Proof.
  unfold seekName. induction tokens as [|t tokens IH]; simpl; [done|].
  destruct (IGNORE t).
  - intros H. apply IH in H. lia.
  - intros [= _ <-]. lia.
Qed.

Lemma items_nil tokens : items tokens = [] → tokens = [].
Proof.
  destruct tokens as [|t rest]; [done|]. simpl.
  repeat (case_match; try done);
    rewrite fileNameToken_seek; repeat case_match; done.
Qed.

#[local] Opaque pushArgs.

(** The parser and its item-by-item form agree on every input. *)
Lemma parseFrom_items tokens :
  ∀ chain command simpleCommand st,
    parseFrom tokens chain command simpleCommand st =
    parseItems (items tokens) chain command simpleCommand st.
Proof.
  remember (length tokens) as n eqn:Hn.
  revert tokens Hn. induction (lt_wf n) as [n _ IH].
  intros [|t rest] Hn chain command simpleCommand st; [done|].
  simpl in Hn. simpl.
  assert (IHrest : ∀ chain command simpleCommand st,
    parseFrom rest chain command simpleCommand st =
    parseItems (items rest) chain command simpleCommand st).
  { apply (IH (length rest)); [lia | done]. }
  assert (IHseek : ∀ name rest', seekName rest = Some (name, rest') →
    ∀ chain command simpleCommand st,
    parseFrom rest' chain command simpleCommand st =
    parseItems (items rest') chain command simpleCommand st).
  { intros name rest' Hs. apply seekName_shorter in Hs.
    apply (IH (length rest')); [lia | done]. }
  destruct (IS_CHAINING_OPERATOR t).
  { simpl. destruct rest as [|t' rest']; [done|].
    rewrite IHrest. destruct (items (t' :: rest')) eqn:E; [|done].
    by apply items_nil in E. }
  destruct (IS_PIPE t).
  { simpl. repeat case_match; simplify_eq; try done; apply IHrest. }
  destruct (IS_FILE_OUT_REDIR t).
  { rewrite !fileNameToken_seek.
    destruct (seekName rest) as [[name rest']|]; simpl;
      unfold redirect; repeat case_match; simplify_eq; simpl in *;
      simplify_eq; try done; by apply (IHseek _ _ eq_refl). }
  destruct (IS_FILE_IN_REDIR t).
  { rewrite !fileNameToken_seek.
    destruct (seekName rest) as [[name rest']|]; simpl;
      unfold redirect; repeat case_match; simplify_eq; simpl in *;
      simplify_eq; try done; by apply (IHseek _ _ eq_refl). }
  destruct (IS_STDERR_REDIR t).
  { rewrite !fileNameToken_seek.
    destruct (seekName rest) as [[name rest']|]; simpl;
      unfold redirect; repeat case_match; simplify_eq; simpl in *;
      simplify_eq; try done; by apply (IHseek _ _ eq_refl). }
  destruct (IGNORE t); simpl; [apply IHrest|].
  unfold word. repeat case_match; simpl in *; try done;
    repeat match goal with H : Some _ = Some _ |- _ => injection H as <- <- end;
    apply IHrest.
Qed.

#[local] Transparent pushArgs.

End Grammar.

(** ** Facts about the argument builder and the parser *)

(** Everything of a stage except its words. *)
Definition same_wiring (s s' : SimpleCommand) : Prop :=
  inputFD s' = inputFD s ∧ outputFD s' = outputFD s ∧ stderrFD s' = stderrFD s ∧
  noWait s' = noWait s ∧ execute s' = execute s ∧ pid s' = pid s.

Lemma same_wiring_refl s : same_wiring s s.
Proof. by repeat split. Qed.

Lemma same_wiring_trans s1 s2 s3 :
  same_wiring s1 s2 → same_wiring s2 s3 → same_wiring s1 s3.
Proof. unfold same_wiring. intros; destruct_and!; repeat split; congruence. Qed.

Lemma pushArgs_wiring arg s : same_wiring s (pushArgs arg s).2.
Proof. unfold pushArgs. simpl. case_decide; by repeat split. Qed.

Lemma pushArgs_null_terminated arg s :
  length (args (pushArgs arg s).2) = S (argc (pushArgs arg s).2) ∧
  args (pushArgs arg s).2 !! argc (pushArgs arg s).2 = Some None.
Proof.
  assert (Hlen : length (realloc None (args s) (argc s + 2)) = (argc s + 2)%nat).
  { unfold realloc. rewrite length_take, length_app, length_replicate. lia. }
  unfold pushArgs. simpl. case_decide; simpl.
  all: rewrite !length_insert, Hlen; split; [lia|].
  all: apply list_lookup_insert_eq; rewrite length_insert, Hlen; lia.
Qed.

Opaque pushArgs.

Lemma pushAll_spec paths :
  ∀ s, (pushAll paths s).1 = 0 ∧ same_wiring s (pushAll paths s).2 ∧
       ∀ words, stage_holds words s → stage_holds (words ++ paths) (pushAll paths s).2.
Proof.
  induction paths as [|p paths IH]; intros s; simpl.
  - split_and!; [done | apply same_wiring_refl |].
    intros ws Hws. by rewrite app_nil_r.
  - pose proof (pushArgs_status p s) as Hst.
    pose proof (pushArgs_wiring p s) as Hw.
    pose proof (λ words, pushArgs_holds words p s) as Hh.
    destruct (pushArgs p s) as [r s1]. simpl in *. subst r.
    rewrite decide_True by done.
    destruct (IH s1) as (H1 & H2 & H3). split_and!; [done| |].
    + by eapply same_wiring_trans.
    + intros words Hwords.
      replace (words ++ p :: paths) with ((words ++ [p]) ++ paths)
        by by rewrite <- (assoc_L (++)).
      auto.
Qed.

Section ParserFacts.
Context `{U : Utils} `{K : Kernel}.

(** A token none of the operator tests and not [IGNORE] accepts. *)
Definition plainWord (t : string) : bool :=
  negb (IS_CHAINING_OPERATOR t) && negb (IS_PIPE t) && negb (IS_FILE_OUT_REDIR t)
  && negb (IS_FILE_IN_REDIR t) && negb (IS_STDERR_REDIR t) && negb (IGNORE t).

(** A token [IGNORE] accepts and no operator test before it. *)
Definition blankToken (t : string) : bool :=
  negb (IS_CHAINING_OPERATOR t) && negb (IS_PIPE t) && negb (IS_FILE_OUT_REDIR t)
  && negb (IS_FILE_IN_REDIR t) && negb (IS_STDERR_REDIR t) && IGNORE t.

Lemma items_plainWord t rest :
  plainWord t = true → items (t :: rest) = IWord t :: items rest.
Proof.
  unfold plainWord. rewrite !andb_true_iff, !negb_true_iff.
  intros (((((H1 & H2) & H3) & H4) & H5) & H6). simpl.
  by rewrite H1, H2, H3, H4, H5, H6.
Qed.

Lemma items_blankToken t rest :
  blankToken t = true → items (t :: rest) = IBlank t :: items rest.
Proof.
  unfold blankToken. rewrite !andb_true_iff, !negb_true_iff.
  intros (((((H1 & H2) & H3) & H4) & H5) & H6). simpl.
  by rewrite H1, H2, H3, H4, H5, H6.
Qed.

Lemma word_history c more s st :
  commandName s = None →
  word (String "!" (String c more)) s st =
  Some (pushArgs (String c more) (pushArgs "history" s).2).2.
Proof.
  intros Hn. unfold word. rewrite Hn.
  pose proof (pushArgs_status "history" s) as H1.
  destruct (pushArgs "history" s) as [r1 s1]. simpl in *. subst r1.
  rewrite decide_False by (intros Hc; by apply Hc).
  pose proof (pushArgs_status (String c more) s1) as H2.
  destruct (pushArgs (String c more) s1) as [r2 s2]. simpl in *. subst r2.
  by rewrite decide_False by (intros Hc; by apply Hc).
Qed.

Lemma word_spec t s st s' :
  word t s st = Some s' →
  same_wiring s s' ∧
  ∀ words, stage_holds words s → ∃ new, new ≠ [] ∧ stage_holds (words ++ new) s'.
Proof.
  assert (Hglob :
    match sys_glob (removeQuotes t) (world st) with
    | Some gl_pathv =>
        let '(r, s0) := pushAll gl_pathv s in
        if decide (r ≠ 0) then None else Some s0
    | None => None
    end = Some s' →
    same_wiring s s' ∧
    ∀ words, stage_holds words s → ∃ new, new ≠ [] ∧ stage_holds (words ++ new) s').
  { destruct (sys_glob _ _) as [paths|] eqn:Hg; [|done].
    apply sys_glob_paths in Hg.
    destruct (pushAll_spec paths s) as (H1 & H2 & H3).
    destruct (pushAll paths s) as [r s0]. simpl in *. subst r.
    rewrite decide_False by (intros Hc; by apply Hc). intros [= <-].
    split; [done|]. intros words Hw. exists paths. auto. }
  destruct (commandName s) as [name|] eqn:Hn.
  { unfold word. rewrite Hn. exact Hglob. }
  destruct t as [|a t']; [unfold word; rewrite Hn; exact Hglob|].
  destruct (Ascii.eqb_spec a "!") as [->|Hne];
    [destruct t' as [|c more]; [unfold word; rewrite Hn; exact Hglob|] |].
  - rewrite word_history by done. intros [= <-]. split.
    + eapply same_wiring_trans; apply pushArgs_wiring.
    + intros words Hw. exists ["history"; String c more]. split; [done|].
      replace (words ++ ["history"; String c more])
        with ((words ++ ["history"]) ++ [String c more])
        by by rewrite <- (assoc_L (++)).
      by do 2 apply pushArgs_holds.
  - intros Hw. apply Hglob. revert Hw. unfold word. rewrite Hn.
    destruct a as [[] [] [] [] [] [] [] []]; try done.
Qed.

Lemma addSimpleCommand_snoc command s :
  nSimpleCommands command = length (simpleCommands command) →
  simpleCommands (addSimpleCommand command s) = simpleCommands command ++ [s] ∧
  nSimpleCommands (addSimpleCommand command s) = S (length (simpleCommands command)) ∧
  background (addSimpleCommand command s) = background command ∧
  chainingOperator (addSimpleCommand command s) = chainingOperator command.
Proof.
  intros Hn. unfold addSimpleCommand. simpl. rewrite Hn. split_and!; try done.
  rewrite realloc_grow by lia.
  replace (length (simpleCommands command) + 1 - length (simpleCommands command))%nat
    with 1%nat by lia.
  simpl.
  replace (length (simpleCommands command))
    with (length (simpleCommands command) + 0)%nat at 1 by lia.
  by rewrite insert_app_r.
Qed.

End ParserFacts.

Opaque addSimpleCommand.

(** ** Shape of the parsed chain *)

Section ChainShape.
Context `{U : Utils} `{K : Kernel}.

(** A stage the parser has added to a pipeline: it has a name, its first
    word; its runner is bound; [noWait] and [pid] are as initialised. *)
Definition committed (s : SimpleCommand) : Prop :=
  ∃ name words,
    stage_holds (name :: words) s ∧
    execute s = Some (getExecutionFunction name) ∧ noWait s = 0 ∧ pid s = -1.

(** A stage under construction. *)
Definition building (s : SimpleCommand) : Prop :=
  (∃ words, stage_holds words s) ∧ noWait s = 0 ∧ pid s = -1.

(** A pipeline under construction. *)
Definition pipeline_ok (c : Command) : Prop :=
  nSimpleCommands c = length (simpleCommands c) ∧
  Forall committed (simpleCommands c) ∧
  background c = false.

(** The background flag the terminator decides. *)
Definition backgroundOf (terminator : option string) : bool :=
  match terminator with Some t => IS_BACKGROUND t | None => false end.

(** A pipeline in the returned chain. *)
Definition closed_ok (c : Command) : Prop :=
  nSimpleCommands c = length (simpleCommands c) ∧
  Forall committed (simpleCommands c) ∧
  background c = backgroundOf (chainingOperator c).

Lemma building_init : building initSimpleCommand.
Proof. split; [by exists []|done]. Qed.

Lemma pipeline_ok_init : pipeline_ok initCommand.
Proof. by repeat split. Qed.

Lemma committed_commit name s :
  building s → commandName s = Some name →
  committed (set_execute (Some (getExecutionFunction name)) s).
Proof.
  intros [[words Hw] [Hnw Hpid]] Hn. destruct Hw as (Hc & Hh & Ha).
  destruct words as [|w ws]; [by rewrite Hn in Hh|].
  rewrite Hn in Hh. simpl in Hh. injection Hh as ->.
  exists w, ws. by repeat split.
Qed.

Lemma stepItem_ok it command s st command' s' st' :
  pipeline_ok command → building s →
  stepItem it command s st = (Some (command', s'), st') →
  pipeline_ok command' ∧ building s'.
Proof.
  intros Hp Hb. destruct it as [t|t|t file|t file|t file|t|t]; simpl.
  - done.
  - destruct (commandName s) as [name|] eqn:Hn; [|done].
    case_decide; [done|]. destruct (pipe st) as [[pipeFD|] st1]; [|done].
    intros [= <- <- <-]. destruct Hp as (Hlen & Hall & Hbg).
    destruct (addSimpleCommand_snoc command
      (set_execute (Some (getExecutionFunction name))
         (set_outputFD (PIPE_WRITE_END pipeFD) s)) Hlen) as (E1 & E2 & E3 & E4).
    split.
    + split_and!.
      * rewrite E1, E2, length_app. simpl. lia.
      * rewrite E1. apply Forall_app. split; [done|]. apply Forall_singleton.
        apply (committed_commit name (set_outputFD (PIPE_WRITE_END pipeFD) s));
          [|done].
        destruct Hb as [[words Hw] ?]. split; [by exists words|done].
      * by rewrite E3.
    + split; [by exists []|done].
  - destruct (commandName s); [|done]. case_decide; [done|].
    unfold redirect. destruct file as [name|]; [|done].
    destruct (open name _ st) as [fd st1]. case_decide; [done|].
    simpl. intros [= <- <- <-]. split; [done|].
    destruct Hb as [[words Hw] ?]. split; [by exists words|done].
  - case_decide; [done|].
    unfold redirect. destruct file as [name|]; [|done].
    destruct (open name _ st) as [fd st1]. case_decide; [done|].
    simpl. intros [= <- <- <-]. split; [done|].
    destruct Hb as [[words Hw] ?]. split; [by exists words|done].
  - case_decide; [done|].
    unfold redirect. destruct file as [name|]; [|done].
    destruct (open name _ st) as [fd st1]. case_decide; [done|].
    simpl. intros [= <- <- <-]. split; [done|].
    destruct Hb as [[words Hw] ?]. split; [by exists words|done].
  - intros [= <- <- <-]. done.
  - destruct (word t s st) as [s0|] eqn:Hw; [|done]. simpl.
    intros [= <- <- <-]. split; [done|].
    apply word_spec in Hw as [Hsame Hwords].
    destruct Hb as [[words Hh] [Hnw Hpid]].
    destruct (Hwords words Hh) as (new & _ & Hnew).
    destruct Hsame as (_ & _ & _ & E1 & _ & E2).
    split; [by exists (words ++ new)|]. by rewrite E1, E2.
Qed.

Lemma closeCommand_snoc terminator chain command s :
  pipeline_ok command → building s →
  ∃ c, closeCommand terminator chain command s = chain ++ [c] ∧
       closed_ok c ∧ chainingOperator c = terminator ∧
       simpleCommands c =
         simpleCommands command ++
         match commandName s with
         | Some name => [set_execute (Some (getExecutionFunction name)) s]
         | None => []
         end.
Proof.
  intros (Hlen & Hall & Hbg) Hb. unfold closeCommand, addCommandToChain, COPY.
  eexists. split; [done|]. simpl.
  destruct (commandName s) as [name|] eqn:Hn.
  - destruct (addSimpleCommand_snoc command
      (set_execute (Some (getExecutionFunction name)) s) Hlen) as (E1 & E2 & E3 & E4).
    split_and!; try done.
    + split_and!; simpl.
      * rewrite E1, E2, length_app. simpl. lia.
      * rewrite E1. apply Forall_app. split; [done|]. apply Forall_singleton.
        by apply committed_commit.
      * rewrite E3, Hbg. destruct terminator as [t|]; [|done]. simpl.
        by destruct (IS_BACKGROUND t).
  - split_and!; try done; [|by rewrite app_nil_r]. split_and!; simpl; try done.
    rewrite Hbg. destruct terminator as [t|]; [|done]. simpl.
    by destruct (IS_BACKGROUND t).
Qed.

Lemma parseItems_ok its :
  ∀ chain command s st chain' st',
    Forall closed_ok chain → pipeline_ok command → building s →
    parseItems its chain command s st = (Some chain', st') →
    Forall closed_ok chain' ∧ (length chain < length chain')%nat.
Proof.
  induction its as [|it its IH]; intros chain command s st chain' st' Hc Hp Hb.
  - simpl. intros [= <- <-].
    destruct (closeCommand_snoc None chain command s Hp Hb) as (c & -> & Hok & _).
    split; [|rewrite length_app; simpl; lia].
    apply Forall_app. split; [done|by apply Forall_singleton].
  - assert (Hstep :
      match stepItem it command s st with
      | (None, st1) => (None, st1)
      | (Some (command', s'), st1) => parseItems its chain command' s' st1
      end = (Some chain', st') →
      Forall closed_ok chain' ∧ (length chain < length chain')%nat).
    { destruct (stepItem it command s st) as [[[command' s']|] st1] eqn:Hs; [|done].
      destruct (stepItem_ok _ _ _ _ _ _ _ Hp Hb Hs) as [Hp' Hb'].
      by apply IH. }
    destruct it as [t|t|t file|t file|t file|t|t]; try exact Hstep.
    simpl.
    destruct (closeCommand_snoc (Some t) chain command s Hp Hb) as (c & -> & Hok & _).
    assert (Hc' : Forall closed_ok (chain ++ [c])).
    { apply Forall_app. split; [done|by apply Forall_singleton]. }
    destruct its as [|it' its'].
    + intros [= <- <-]. split; [done|]. rewrite length_app. simpl. lia.
    + intros Hrun.
      apply (IH _ _ _ _ _ _ Hc' pipeline_ok_init building_init) in Hrun as [H1 H2].
      split; [done|]. rewrite length_app in H2. simpl in H2. lia.
Qed.

Lemma parseTokens_items t rest st :
  parseTokens (t :: rest) st =
  parseItems (items (t :: rest)) initCommandChain initCommand initSimpleCommand st.
Proof. unfold parseTokens. apply parseFrom_items. Qed.

Lemma parseItems_blanks blanks :
  Forall (λ t, blankToken t = true) blanks →
  ∀ tail chain command s st,
    parseItems (items (blanks ++ tail)) chain command s st =
    parseItems (items tail) chain command s st.
Proof.
  induction 1 as [|t blanks Ht _ IH]; intros tail chain command s st; [done|].
  rewrite <- app_comm_cons, (items_blankToken _ _ Ht). simpl. apply IH.
Qed.

End ChainShape.

(** ** The argument builder, the history rewrite, blank lines *)

(** C9. On a stage with no argument yet, pushing [a], [b], [c] in this
    order succeeds three times (status 0) and leaves argument count 3,
    program name [a] and the array [[a; b; c; NULL]]; the array ends in
    [NULL] after each of the pushes. *)
Theorem pushArgs_three (s : SimpleCommand) (a b c : string) :
  stage_holds [] s →
  let r1 := pushArgs a s in
  let r2 := pushArgs b r1.2 in
  let r3 := pushArgs c r2.2 in
  r1.1 = 0 ∧ r2.1 = 0 ∧ r3.1 = 0 ∧
  args r1.2 = [Some a; None] ∧
  args r2.2 = [Some a; Some b; None] ∧
  argc r3.2 = 3%nat ∧ commandName r3.2 = Some a ∧
  args r3.2 = [Some a; Some b; Some c; None].
Proof.
  intros H0 r1 r2 r3.
  pose proof (pushArgs_holds [] a s H0) as H1. fold r1 in H1.
  pose proof (pushArgs_holds [a] b r1.2 H1) as H2. fold r2 in H2.
  pose proof (pushArgs_holds [a; b] c r2.2 H2) as H3. fold r3 in H3.
  destruct H1 as (_ & _ & A1), H2 as (_ & _ & A2), H3 as (C3 & N3 & A3).
  split_and!; try apply pushArgs_status; done.
Qed.

Lemma pushArgs_three_witness :
  stage_holds [] initSimpleCommand ∧
  args (pushArgs "c" (pushArgs "b" (pushArgs "a" initSimpleCommand).2).2).2
    = [Some "a"; Some "b"; Some "c"; None].
Proof.
  split; [exact initSimpleCommand_holds|].
  apply (pushArgs_three initSimpleCommand "a" "b" "c" initSimpleCommand_holds).
Defined.

Section Rewrites.
Context `{U : Utils} `{K : Kernel}.

(** C8. A token ['!' :: c :: more] that is a plain word, read while the
    stage has no argument yet, makes the parser go on with the stage that
    holds exactly the two arguments ["history"] and [c :: more]: count 2,
    name ["history"], array [["history"; c :: more; NULL]].  Neither
    [removeQuotes] nor [glob] is consulted and the state is untouched. *)
Theorem history_bang_rewrite (c : ascii) (more : string) (rest : list string)
    (chain : CommandChain) (command : Command) (s : SimpleCommand) (st : St) :
  plainWord (String "!" (String c more)) = true →
  stage_holds [] s →
  let s' := (pushArgs (String c more) (pushArgs "history" s).2).2 in
  parseFrom (String "!" (String c more) :: rest) chain command s st =
    parseFrom rest chain command s' st ∧
  argc s' = 2%nat ∧ commandName s' = Some "history" ∧
  args s' = [Some "history"; Some (String c more); None] ∧
  same_wiring s s'.
Proof.
  intros Hw H0 s'. split.
  - rewrite !parseFrom_items, (items_plainWord _ _ Hw). simpl.
    destruct H0 as (_ & Hn & _). simpl in Hn.
    by rewrite (word_history c more s st Hn).
  - pose proof (pushArgs_holds [] "history" s H0) as H1.
    pose proof (pushArgs_holds ["history"] (String c more) _ H1) as H2.
    fold s' in H2. destruct H2 as (C2 & N2 & A2). split_and!; try done.
    eapply same_wiring_trans; apply pushArgs_wiring.
Qed.

End Rewrites.

Lemma history_bang_rewrite_witness :
  plainWord (U := Platform.utils) "!5" = true ∧
  stage_holds [] initSimpleCommand ∧
  (parseTokens (U := Platform.utils) ["!5"] (Platform.boot [] [])).1 =
    Some [ {| simpleCommands :=
                [ {| commandName := Some "history";
                     args := [Some "history"; Some "5"; None]; argc := 2;
                     inputFD := STDIN_FD; outputFD := STDOUT_FD; stderrFD := STDERR_FD;
                     noWait := 0; execute := Some ptr_history; pid := -1 |} ];
              nSimpleCommands := 1; background := false;
              chainingOperator := None |} ].
Proof.
  split; [reflexivity|]. split; [exact initSimpleCommand_holds|].
  unfold parseTokens.
  rewrite (proj1 (history_bang_rewrite (U := Platform.utils) "5" "" []
                    initCommandChain initCommand
                    initSimpleCommand (Platform.boot [] []) eq_refl
                    initSimpleCommand_holds)).
  vm_compute. reflexivity.
Defined.

Section InputRedirection.
Context `{U : Utils} `{K : Kernel}.

(** What the input-redirection branch (lines 166-192) does with the item
    [< file]: it fails when the input is already bound, when the file
    name is the final [NULL] and when [open] returns [-1]; otherwise the
    input becomes the descriptor opened with [O_RDONLY].  The program name
    is not asked for. *)
Lemma input_redirection_rules t file command s st :
  stepItem (IInput t file) command s st =
  if decide (inputFD s ≠ STDIN_FD) then (None, st)
  else
    match file with
    | None => (None, st)
    | Some name =>
        if decide ((open name O_RDONLY st).1 = -1)
        then (None, (open name O_RDONLY st).2)
        else (Some (command, set_inputFD (open name O_RDONLY st).1 s),
              (open name O_RDONLY st).2)
    end.
Proof.
  simpl. case_decide; [done|]. unfold redirect. destruct file as [name|]; [|done].
  destruct (open name O_RDONLY st) as [fd st1]. simpl. by case_decide.
Qed.

End InputRedirection.

(** C6, at the failing input: with a readable file [f], the line
    [< f cat] is accepted although the redirection comes before any
    program name, and yields the stage [cat] reading from the opened
    descriptor; the same line with [>] is rejected. *)
Theorem input_redirection_before_command :
  (parseTokens (U := Platform.utils) ["<"; "f"; "cat"] (Platform.boot ["f"] [])).1 =
    Some [ {| simpleCommands :=
                [ {| commandName := Some "cat"; args := [Some "cat"; None]; argc := 1;
                     inputFD := 3; outputFD := STDOUT_FD; stderrFD := STDERR_FD;
                     noWait := 0; execute := Some ptr_executeProcess; pid := -1 |} ];
              nSimpleCommands := 1; background := false;
              chainingOperator := None |} ] ∧
  (parseTokens (U := Platform.utils) [">"; "f"; "cat"] (Platform.boot ["f"] [])).1 = None.
Proof. split; vm_compute; reflexivity. Qed.

Section BlankLines.
Context `{U : Utils} `{K : Kernel}.

(** C4, as amended.  A returned chain is empty only for the empty token
    array; each of its pipelines has [nSimpleCommands] stages, every
    stage with a program name and a bound runner, and its background flag
    is the one its terminator decides; a pipeline may have no stage.  A
    line of blank tokens, closed by the final [NULL] or by a chaining
    operator, is accepted and yields one pipeline with no stage. *)
Theorem parse_chain_shape :
  (∀ tokens st chain st',
     parseTokens tokens st = (Some chain, st') →
     (chain = [] ↔ tokens = []) ∧ Forall closed_ok chain) ∧
  (∀ blanks terminator st,
     blanks ≠ [] →
     Forall (λ t, blankToken t = true) blanks →
     (∀ t, terminator = Some t → IS_CHAINING_OPERATOR t = true) →
     parseTokens (blanks ++ option_list terminator) st =
       (Some [ {| simpleCommands := []; nSimpleCommands := 0;
                  background := backgroundOf terminator;
                  chainingOperator := terminator |} ], st)).
Proof.
  split.
  - intros [|t rest] st chain st'.
    + intros [= <- <-]. done.
    + rewrite parseTokens_items. intros Hrun.
      apply parseItems_ok in Hrun as [H1 H2];
        [|done|apply pipeline_ok_init|apply building_init].
      split; [|done]. split; [|done]. intros ->. simpl in H2. lia.
  - intros blanks terminator st Hne Hblank Hterm.
    destruct (blanks ++ option_list terminator) as [|t0 l0] eqn:E.
    { apply app_eq_nil in E as [-> _]. done. }
    rewrite parseTokens_items, <- E, parseItems_blanks by done.
    destruct terminator as [t|]; simpl.
    + rewrite (Hterm t eq_refl). simpl.
      unfold closeCommand, addCommandToChain, COPY. simpl.
      by destruct (IS_BACKGROUND t).
    + done.
Qed.

End BlankLines.

Lemma parse_chain_shape_witness :
  ([""; ""] ≠ [] ∧
   Forall (λ t, blankToken (U := Platform.utils) t = true) [""; ""] ∧
   (∀ t, Some ";" = Some t → IS_CHAINING_OPERATOR (Utils := Platform.utils) t = true)) ∧
  parseTokens (U := Platform.utils) ([""; ""] ++ option_list (Some ";")) (Platform.boot [] []) =
    (Some [ {| simpleCommands := []; nSimpleCommands := 0;
               background := false; chainingOperator := Some ";" |} ],
     Platform.boot [] []).
Proof.
  assert (H1 : [""; ""] ≠ @nil string) by discriminate.
  assert (H2 : Forall (λ t, blankToken (U := Platform.utils) t = true) [""; ""])
    by (repeat constructor).
  assert (H3 : ∀ t, Some ";" = Some t →
                    IS_CHAINING_OPERATOR (Utils := Platform.utils) t = true)
    by (intros t [= <-]; reflexivity).
  split; [by split_and!|].
  exact (proj2 (parse_chain_shape (U := Platform.utils))
           [""; ""] (Some ";") (Platform.boot [] []) H1 H2 H3).
Defined.

(** C4, the claim as stated fails: the line of two blank tokens is accepted
    and its chain is not empty, yet its only pipeline has no stage. *)
Lemma blank_line_chain_not_empty :
  ∃ chain st',
    parseTokens (U := Platform.utils) [""; ""] (Platform.boot [] []) = (Some chain, st') ∧
    chain ≠ [] ∧ ¬ Forall (λ c, simpleCommands c ≠ []) chain.
Proof.
  eexists _, _. split; [vm_compute; reflexivity|]. split; [done|].
  intros H. apply Forall_cons in H as [H _]. by apply H.
Qed.

(** ** Pipelines: stages and pipes *)

Definition isTerminator (it : Item) : bool :=
  match it with ITerminator _ => true | _ => false end.

Fixpoint countPipes (its : list Item) : nat :=
  match its with
  | [] => 0
  | IPipe _ :: its' => S (countPipes its')
  | _ :: its' => countPipes its'
  end.

(** Whether a word follows the last pipe operator (the first item, when
    there is no pipe operator); [seen] is the answer so far. *)
Fixpoint trailingWord (seen : bool) (its : list Item) : bool :=
  match its with
  | [] => seen
  | IPipe _ :: its' => trailingWord false its'
  | IWord _ :: its' => trailingWord true its'
  | _ :: its' => trailingWord seen its'
  end.

(** Stage [a] writes into a pipe created by one of the calls [evs] and
    stage [b] reads from that pipe. *)
Definition linked (evs : list Event) (a b : SimpleCommand) : Prop :=
  ∃ r w, EvPipe r w ∈ evs ∧ outputFD a = w ∧ inputFD b = r.

(** Each stage is [linked] to the next one. *)
Inductive piped (evs : list Event) : list SimpleCommand → Prop :=
  | piped_nil : piped evs []
  | piped_one a : piped evs [a]
  | piped_cons a b l : linked evs a b → piped evs (b :: l) → piped evs (a :: b :: l).

(** The input is the interpreter's, or a file opened read-only by one of
    the calls [evs]. *)
Definition input_source (evs : list Event) (s : SimpleCommand) : Prop :=
  inputFD s = STDIN_FD ∨ ∃ path, EvOpen path O_RDONLY (inputFD s) ∈ evs.

(** The output is the interpreter's, or a file opened for writing by one
    of the calls [evs]. *)
Definition output_sink (evs : list Event) (s : SimpleCommand) : Prop :=
  outputFD s = STDOUT_FD ∨
  ∃ path flags, flags ≠ O_RDONLY ∧ EvOpen path flags (outputFD s) ∈ evs.

Definition first_input (evs : list Event) (l : list SimpleCommand) : Prop :=
  match l with a :: _ => input_source evs a | [] => True end.

Lemma linked_mono evs e a b : linked evs a b → linked (evs ++ [e]) a b.
Proof.
  intros (r & w & Hin & ? & ?). exists r, w. split; [|done].
  apply elem_of_app. by left.
Qed.

Lemma piped_mono evs e l : piped evs l → piped (evs ++ [e]) l.
Proof. induction 1; constructor; auto using linked_mono. Qed.

Lemma input_source_mono evs e s : input_source evs s → input_source (evs ++ [e]) s.
Proof.
  intros [?|[path Hin]]; [by left|right]. exists path. apply elem_of_app. by left.
Qed.

Lemma first_input_mono evs e l : first_input evs l → first_input (evs ++ [e]) l.
Proof. destruct l; [done|]. apply input_source_mono. Qed.

Lemma output_sink_mono evs e s : output_sink evs s → output_sink (evs ++ [e]) s.
Proof.
  intros [?|(path & flags & ? & Hin)]; [by left|right].
  exists path, flags. split; [done|]. apply elem_of_app. by left.
Qed.

Lemma piped_replace_last evs l s s1 :
  piped evs (l ++ [s]) → inputFD s1 = inputFD s → piped evs (l ++ [s1]).
Proof.
  intros Hp Hin. induction l as [|a l IH]; simpl in *; [constructor|].
  destruct l as [|b l]; simpl in *.
  - inversion Hp as [| |? ? ? Hl ?]; subst. destruct Hl as (r & w & ? & ? & ?).
    constructor; [|constructor]. exists r, w. split_and!; congruence.
  - inversion Hp; subst. constructor; auto.
Qed.

Lemma piped_snoc evs l s1 s2 :
  piped evs (l ++ [s1]) → linked evs s1 s2 → piped evs (l ++ [s1; s2]).
Proof.
  intros Hp Hl. induction l as [|a l IH]; simpl in *.
  - constructor; [done|constructor].
  - destruct l as [|b l]; simpl in *; inversion Hp; subst; constructor; auto.
Qed.

Lemma piped_last_linked evs l a s : piped evs (l ++ [a; s]) → linked evs a s.
Proof.
  induction l as [|b l IH]; simpl; intros Hp.
  - by inversion Hp.
  - apply IH. destruct l; simpl in *; by inversion Hp.
Qed.

Lemma piped_lookup evs l i a b :
  piped evs l → l !! i = Some a → l !! S i = Some b → linked evs a b.
Proof.
  intros Hp. revert i. induction Hp as [|c|c d l Hl Hp IH]; intros i Ha Hb.
  - done.
  - by destruct i.
  - destruct i as [|i]; simpl in *; [by simplify_eq|]. by eapply IH.
Qed.

Lemma first_input_replace_last evs l s s1 :
  first_input evs (l ++ [s]) → inputFD s1 = inputFD s →
  (l = [] → input_source evs s1) → first_input evs (l ++ [s1]).
Proof. destruct l; simpl; auto. Qed.

Lemma first_input_snoc evs l s1 s2 :
  first_input evs (l ++ [s1]) → first_input evs (l ++ [s1; s2]).
Proof. by destruct l. Qed.

Section Pipelines.
Context `{U : Utils} `{K : Kernel}.

(** The number of pipe operators of a line. *)
Definition pipeOperators (tokens : list string) : nat := countPipes (items tokens).

(** A line with no chaining operator: one pipeline. *)
Definition singlePipeline (tokens : list string) : Prop :=
  Forall (λ it, isTerminator it = false) (items tokens).

(** A line that does not end in a pipe operator with no command after it. *)
Definition endsInCommand (tokens : list string) : bool :=
  trailingWord false (items tokens).

Lemma pipe_trace st pipeFD st1 :
  pipe st = (Some pipeFD, st1) →
  trace st1 = trace st ++ [EvPipe pipeFD.1 pipeFD.2] ∧
  sys_pipe (world st) = (Some pipeFD, world st1).
Proof.
  unfold pipe. destruct (sys_pipe (world st)) as [[p|] w] eqn:E; [|done].
  by intros [= <- <-].
Qed.

Lemma open_trace name flags st fd st1 :
  open name flags st = (fd, st1) → trace st1 = trace st ++ [EvOpen name flags fd].
Proof.
  unfold open. destruct (sys_open name flags (world st)) as [fd' w].
  by intros [= <- <-].
Qed.

(** With the interpreter's standard input open, [pipe(2)] does not hand
    out descriptor 0. *)
Definition pipes_above_stdin : Prop :=
  ∀ w pipeFD w', sys_pipe w = (Some pipeFD, w') → PIPE_READ_END pipeFD ≠ STDIN_FD.

Definition reads_ok (evs : list Event) : Prop :=
  ∀ r w, EvPipe r w ∈ evs → r ≠ STDIN_FD.

(** The loop invariant of one pipeline: [evs] are the calls made for the
    line so far; the stages added and the one under construction are
    [piped]. *)
Definition pipeline_inv (tr0 : list Event) (command : Command) (s : SimpleCommand)
    (st : St) (evs : list Event) (seen : bool) : Prop :=
  pipeline_ok command ∧ building s ∧ trace st = tr0 ++ evs ∧ reads_ok evs ∧
  piped evs (simpleCommands command ++ [s]) ∧
  first_input evs (simpleCommands command ++ [s]) ∧
  output_sink evs s ∧
  (seen = true → commandName s ≠ None).

Definition seenAfter (it : Item) (seen : bool) : bool :=
  match it with IPipe _ => false | IWord _ => true | _ => seen end.

Lemma reads_ok_snoc evs e :
  reads_ok evs → (∀ r w, e = EvPipe r w → r ≠ STDIN_FD) → reads_ok (evs ++ [e]).
Proof.
  intros H1 H2 r w [Hin|Hin%list_elem_of_singleton]%elem_of_app; eauto.
Qed.

Lemma stepItem_pipeline_inv tr0 it command s st evs seen command' s' st' :
  pipes_above_stdin →
  isTerminator it = false →
  pipeline_inv tr0 command s st evs seen →
  stepItem it command s st = (Some (command', s'), st') →
  ∃ evs', pipeline_inv tr0 command' s' st' evs' (seenAfter it seen) ∧
          length (simpleCommands command') =
            (length (simpleCommands command) + countPipes [it])%nat.
Proof.
  intros Hfresh Hnt (Hp & Hb & Htr & Hr & Hpi & Hfi & Hos & Hseen) Hstep.
  destruct (stepItem_ok _ _ _ _ _ _ _ Hp Hb Hstep) as [Hp' Hb'].
  destruct it as [t|t|t file|t file|t file|t|t]; simpl in Hstep; [done|..].
  - (* pipe *)
    destruct (commandName s) as [name|] eqn:Hn; [|done].
    case_decide as Hout; [done|].
    destruct (pipe st) as [[pipeFD|] st1] eqn:Hpipe; [|done].
    injection Hstep as <- <- <-.
    apply pipe_trace in Hpipe as [Htr1 Hsys].
    destruct Hp as (Hlen & _ & _).
    destruct (addSimpleCommand_snoc command
      (set_execute (Some (getExecutionFunction name))
         (set_outputFD (PIPE_WRITE_END pipeFD) s)) Hlen) as (E1 & _).
    exists (evs ++ [EvPipe pipeFD.1 pipeFD.2]). split.
    + split_and!; try done.
      * by rewrite Htr1, Htr, (assoc_L (++)).
      * apply reads_ok_snoc; [done|]. intros r w [= <- <-].
        by apply (Hfresh _ _ _ Hsys).
      * rewrite E1, <- (assoc_L (++)). simpl. apply piped_snoc.
        -- apply piped_mono. by eapply piped_replace_last.
        -- exists pipeFD.1, pipeFD.2. split; [|done].
           apply elem_of_app. right. by apply list_elem_of_singleton.
      * rewrite E1, <- (assoc_L (++)). simpl. apply first_input_snoc.
        apply first_input_mono.
        eapply first_input_replace_last; [done|done|].
        intros Hnil. rewrite Hnil in Hfi. exact Hfi.
      * by left.
    + rewrite E1, length_app. done.
  - (* output redirection *)
    destruct (commandName s) as [name|] eqn:Hn; [|done].
    case_decide as Hout; [done|].
    unfold redirect in Hstep. destruct file as [name'|]; [|done].
    destruct (open name' _ st) as [fd st1] eqn:Hopen.
    case_decide; [done|]. simpl in Hstep. injection Hstep as <- <- <-.
    apply open_trace in Hopen.
    exists (evs ++ [EvOpen name'
      (if IS_APPEND t then O_WRONLY_CREAT_APPEND else O_WRONLY_CREAT_TRUNC) fd]).
    split; [|simpl; lia].
    split_and!; try done.
    + by rewrite Hopen, Htr, <- (assoc_L (++)).
    + apply reads_ok_snoc; [done|]. by intros r w [=].
    + apply piped_mono. by eapply piped_replace_last.
    + apply first_input_mono.
      eapply first_input_replace_last; [done|done|].
      intros Hnil. rewrite Hnil in Hfi. exact Hfi.
    + right. eexists _, _. split; [|apply elem_of_app; right;
        by apply list_elem_of_singleton].
      by destruct (IS_APPEND t).
    + simpl. by rewrite Hn.
  - (* input redirection *)
    case_decide as Hin; [done|].
    assert (Hstdin : inputFD s = STDIN_FD) by (destruct (decide (inputFD s = STDIN_FD)); done).
    unfold redirect in Hstep. destruct file as [name'|]; [|done].
    destruct (open name' _ st) as [fd st1] eqn:Hopen.
    case_decide; [done|]. simpl in Hstep. injection Hstep as <- <- <-.
    apply open_trace in Hopen.
    assert (Hnil : simpleCommands command = []).
    { destruct (simpleCommands command) as [|a l] eqn:El using rev_ind; [done|].
      rewrite <- (assoc_L (++)) in Hpi. simpl in Hpi.
      apply piped_last_linked in Hpi as (r & w & Hev & _ & Hrd).
      apply Hr in Hev. congruence. }
    exists (evs ++ [EvOpen name' O_RDONLY fd]). split; [|simpl; lia].
    split_and!; try done.
    + by rewrite Hopen, Htr, <- (assoc_L (++)).
    + apply reads_ok_snoc; [done|]. by intros r w [=].
    + rewrite Hnil. constructor.
    + rewrite Hnil. simpl. right. exists name'.
      apply elem_of_app. right. by apply list_elem_of_singleton.
    + by apply output_sink_mono.
  - (* stderr redirection *)
    case_decide; [done|].
    unfold redirect in Hstep. destruct file as [name'|]; [|done].
    destruct (open name' _ st) as [fd st1] eqn:Hopen.
    case_decide; [done|]. simpl in Hstep. injection Hstep as <- <- <-.
    apply open_trace in Hopen.
    exists (evs ++ [EvOpen name' O_WRONLY_CREAT_TRUNC fd]). split; [|simpl; lia].
    split_and!; try done.
    + by rewrite Hopen, Htr, <- (assoc_L (++)).
    + apply reads_ok_snoc; [done|]. by intros r w [=].
    + apply piped_mono. by eapply piped_replace_last.
    + apply first_input_mono.
      eapply first_input_replace_last; [done|done|].
      intros Hnil. rewrite Hnil in Hfi. exact Hfi.
    + by apply output_sink_mono.
  - (* blank *)
    injection Hstep as <- <- <-. exists evs. split; [|simpl; lia]. by split_and!.
  - (* word *)
    destruct (word t s st) as [s0|] eqn:Hw; [|done]. simpl in Hstep.
    injection Hstep as <- <- <-.
    apply word_spec in Hw as [(Ein & Eout & _) Hwords].
    exists evs. split; [|simpl; lia].
    split_and!; try done.
    + by eapply piped_replace_last.
    + eapply first_input_replace_last; [done|done|].
      intros Hnil. rewrite Hnil in Hfi. simpl in Hfi.
      unfold input_source. by rewrite Ein.
    + unfold output_sink. by rewrite Eout.
    + intros _. destruct Hb as [[words Hh] _].
      destruct (Hwords words Hh) as (new & Hne & (_ & Hname & _)).
      rewrite Hname. destruct words; [by destruct new|done].
Qed.

End Pipelines.

Section PipelineTheorem.
Context `{U : Utils} `{K : Kernel}.

Lemma trailingWord_cons it its seen :
  isTerminator it = false →
  trailingWord seen (it :: its) = trailingWord (seenAfter it seen) its.
Proof. by destruct it. Qed.

Lemma countPipes_cons it its :
  countPipes (it :: its) = (countPipes [it] + countPipes its)%nat.
Proof. by destruct it. Qed.

Lemma parseItems_step it its chain command s st :
  isTerminator it = false →
  parseItems (it :: its) chain command s st =
  match stepItem it command s st with
  | (None, st1) => (None, st1)
  | (Some (command', s'), st1) => parseItems its chain command' s' st1
  end.
Proof. by destruct it. Qed.

Lemma parseItems_pipeline tr0 its :
  ∀ command s st evs seen chain' st',
    pipes_above_stdin →
    Forall (λ it, isTerminator it = false) its →
    pipeline_inv tr0 command s st evs seen →
    trailingWord seen its = true →
    parseItems its [] command s st = (Some chain', st') →
    ∃ c evs',
      chain' = [c] ∧ trace st' = tr0 ++ evs' ∧
      nSimpleCommands c = length (simpleCommands c) ∧
      length (simpleCommands c) =
        S (length (simpleCommands command) + countPipes its) ∧
      piped evs' (simpleCommands c) ∧
      first_input evs' (simpleCommands c) ∧
      (∀ b, last (simpleCommands c) = Some b → output_sink evs' b).
Proof.
  induction its as [|it its IH];
    intros command s st evs seen chain' st' Hfresh Hnt Hinv Hseen Hrun.
  - simpl in Hseen, Hrun. injection Hrun as <- <-.
    destruct Hinv as (Hp & Hb & Htr & Hr & Hpi & Hfi & Hos & Hnamed).
    destruct (closeCommand_snoc None [] command s Hp Hb)
      as (c & -> & (Hlen & _) & _ & Hstages).
    destruct (commandName s) as [name|] eqn:Hn; [|by destruct (Hnamed Hseen)].
    exists c, evs. rewrite Hstages. split_and!; try done.
    + by rewrite <- Hstages.
    + rewrite length_app. simpl. lia.
    + by eapply piped_replace_last.
    + eapply first_input_replace_last; [done|done|].
      intros Hnil. rewrite Hnil in Hfi. exact Hfi.
    + intros b. rewrite last_snoc. by intros [= <-].
  - apply Forall_cons in Hnt as [Hit Hnt].
    rewrite parseItems_step in Hrun by done.
    rewrite trailingWord_cons in Hseen by done.
    destruct (stepItem it command s st) as [[[command' s']|] st1] eqn:Hstep; [|done].
    destruct (stepItem_pipeline_inv _ _ _ _ _ _ _ _ _ _ Hfresh Hit Hinv Hstep)
      as (evs1 & Hinv1 & Hlen1).
    destruct (IH _ _ _ _ _ _ _ Hfresh Hnt Hinv1 Hseen Hrun)
      as (c & evs' & -> & Htr & Hn & Hlen & Hpi & Hfi & Hlast).
    exists c, evs'. split_and!; try done.
    rewrite Hlen, Hlen1, (countPipes_cons it its). lia.
Qed.

(** C1.  Take a line the parser accepts, with no chaining operator, [N]
    pipe operators and a word after the last of them (the interpreter's
    standard input being open, so that [pipe(2)] does not return
    descriptor 0).  The chain is one pipeline of exactly [N + 1] stages;
    for every [i < N] the output of stage [i] is the write end and the
    input of stage [i + 1] the read end of one pipe created for this line;
    the input of stage 0 is the interpreter's unless a file opened
    read-only for this line replaced it, and the output of stage [N] is
    the interpreter's unless a file opened for writing replaced it. *)
Theorem pipeline_stages (tokens : list string) (st : St)
    (chain : CommandChain) (st' : St) :
  pipes_above_stdin →
  parseTokens tokens st = (Some chain, st') →
  singlePipeline tokens →
  endsInCommand tokens = true →
  ∃ command evs,
    chain = [command] ∧ trace st' = trace st ++ evs ∧
    nSimpleCommands command = S (pipeOperators tokens) ∧
    length (simpleCommands command) = S (pipeOperators tokens) ∧
    (∀ i, (i < pipeOperators tokens)%nat →
       ∃ a b, simpleCommands command !! i = Some a ∧
              simpleCommands command !! S i = Some b ∧ linked evs a b) ∧
    (∃ a, simpleCommands command !! 0%nat = Some a ∧ input_source evs a) ∧
    (∃ b, simpleCommands command !! pipeOperators tokens = Some b ∧
          output_sink evs b).
Proof.
  intros Hfresh Hrun Hsingle Hends.
  destruct tokens as [|t rest]; [done|].
  rewrite parseTokens_items in Hrun.
  assert (Hinv : pipeline_inv (trace st) initCommand initSimpleCommand st [] false).
  { unfold pipeline_inv.
    split_and!;
      [apply pipeline_ok_init | apply building_init | by rewrite app_nil_r
      | by intros r w Hin%elem_of_nil | constructor | by left | by left | done]. }
  destruct (parseItems_pipeline _ _ _ _ _ _ _ _ _ Hfresh Hsingle Hinv Hends Hrun)
    as (c & evs & -> & Htr & Hn & Hlen & Hpi & Hfi & Hlast).
  change (length (simpleCommands c) = S (pipeOperators (t :: rest))) in Hlen.
  generalize dependent (pipeOperators (t :: rest)). intros N Hlen.
  exists c, evs. split_and!; try done.
  - by rewrite Hn.
  - intros i Hi.
    destruct (lookup_lt_is_Some_2 (simpleCommands c) i) as [a Ha]; [lia|].
    destruct (lookup_lt_is_Some_2 (simpleCommands c) (S i)) as [b Hb]; [lia|].
    exists a, b. split_and!; try done. by eapply piped_lookup.
  - destruct (simpleCommands c) as [|a l]; [done|]. by exists a.
  - destruct (simpleCommands c) as [|a l] eqn:E using rev_ind; [done|].
    exists a. rewrite length_app in Hlen. simpl in Hlen.
    split.
    + replace N with (length l + 0)%nat by lia.
      by rewrite lookup_app_r, Nat.add_0_r, Nat.sub_diag by lia.
    + apply Hlast. by rewrite last_snoc.
Qed.

End PipelineTheorem.

(** A line that ends in a pipe operator is accepted as well: the stage
    under construction has no name and is dropped, so [ls |] yields one
    stage, writing into the pipe.  Such a line is not among those
    [endsInCommand] accepts. *)
Example dangling_pipe_line :
  endsInCommand (U := Platform.utils) ["ls"; "|"] = false ∧
  ∃ c s st',
    parseTokens (U := Platform.utils) ["ls"; "|"] (Platform.boot [] []) =
      (Some [c], st') ∧
    simpleCommands c = [s] ∧ outputFD s = 4 ∧ trace st' = [EvPipe 3 4].
Proof.
  split; [reflexivity|]. eexists _, _, _. split; [vm_compute; reflexivity|].
  by split_and!.
Qed.

Lemma pipeline_stages_witness :
  pipes_above_stdin (K := Platform.kernel) ∧
  singlePipeline (U := Platform.utils) ["ls"; "|"; "wc"; "-l"] ∧
  endsInCommand (U := Platform.utils) ["ls"; "|"; "wc"; "-l"] = true ∧
  ∃ command evs,
    (parseTokens (U := Platform.utils) ["ls"; "|"; "wc"; "-l"]
       (Platform.boot [] [])).1 = Some [command] ∧
    length (simpleCommands command) = 2%nat ∧
    (∃ a b, simpleCommands command !! 0%nat = Some a ∧
            simpleCommands command !! 1%nat = Some b ∧ linked evs a b).
Proof.
  assert (H1 : pipes_above_stdin (K := Platform.kernel)).
  { intros w pipeFD w' [= <- _]. unfold PIPE_READ_END, STDIN_FD, Platform.next_fd.
    simpl. lia. }
  assert (H2 : singlePipeline (U := Platform.utils) ["ls"; "|"; "wc"; "-l"])
    by (repeat constructor).
  assert (H3 : endsInCommand (U := Platform.utils) ["ls"; "|"; "wc"; "-l"] = true)
    by reflexivity.
  split_and!; try done.
  destruct (parseTokens (U := Platform.utils) ["ls"; "|"; "wc"; "-l"]
              (Platform.boot [] [])) as [chain st'] eqn:Hrun.
  assert (Hsome : ∃ ch, chain = Some ch).
  { revert Hrun. vm_compute. intros [= <- _]. by eexists. }
  destruct Hsome as [ch ->].
  destruct (pipeline_stages (U := Platform.utils) _ _ _ _ H1 Hrun H2 H3)
    as (command & evs & -> & _ & _ & Hlen & Hlink & _).
  exists command, evs. split_and!; try done.
  apply (Hlink 0%nat). change (pipeOperators ["ls"; "|"; "wc"; "-l"]) with 1%nat. lia.
Defined.

(** ** Facts about the execution engine *)

Section EngineFacts.
Context `{U : Utils} `{K : Kernel}.
Variable invoke : Runner.

(** What the loop does with one stage up to its status: mark it for a
    background pipeline, refuse it without a name, call its runner. *)
Definition launch (command : Command) (s0 : SimpleCommand) (st : St)
    : Run (Z * SimpleCommand * St) :=
  let s := markNoWait command s0 in
  match commandName s with
  | None => Returned (-1, s, st)
  | Some _ =>
    match execute s with
    | None => Stopped NullDereference
    | Some f => invoke f s st
    end
  end.

(** Stages run one after the other, each reporting status 0 and having
    its descriptors closed before the next one starts. *)
Inductive succeed (command : Command)
    : list SimpleCommand → St → list SimpleCommand → St → Prop :=
  | succeed_nil st : succeed command [] st [] st
  | succeed_cons s0 rest st s1 st1 rest' st2 :
      launch command s0 st = Returned (0, s1, st1) →
      succeed command rest (closeDescriptors s1 st1) rest' st2 →
      succeed command (s0 :: rest) st (s1 :: rest') st2.

(** The calls [closeDescriptors] makes for a stage. *)
Definition closesOf (s : SimpleCommand) : list Event :=
  (if decide (inputFD s ≠ STDIN_FD) then [EvClose (inputFD s)] else []) ++
  (if decide (outputFD s ≠ STDOUT_FD) then [EvClose (outputFD s)] else []).

Lemma closeDescriptors_trace s st :
  trace (closeDescriptors s st) = trace st ++ closesOf s.
Proof.
  unfold closeDescriptors, closesOf, close, log.
  repeat case_decide; simpl; by rewrite ?app_nil_r, <- ?(assoc_L (++)).
Qed.

Lemma launch_set_simpleCommands l command s0 st :
  launch (set_simpleCommands l command) s0 st = launch command s0 st.
Proof. done. Qed.

Lemma succeed_set_simpleCommands l command pre st pre' st' :
  succeed command pre st pre' st' → succeed (set_simpleCommands l command) pre st pre' st'.
Proof. induction 1; econstructor; eauto. Qed.

Lemma succeed_length command pre st pre' st' :
  succeed command pre st pre' st' → length pre' = length pre.
Proof. induction 1; simpl; auto. Qed.

Lemma succeed_snoc command pre st pre' st1 s0 s1 st2 :
  succeed command pre st pre' st1 →
  launch command s0 st1 = Returned (0, s1, st2) →
  succeed command (pre ++ [s0]) st (pre' ++ [s1]) (closeDescriptors s1 st2).
Proof.
  induction 1; intros Hl; simpl.
  - econstructor; [done|constructor].
  - econstructor; eauto.
Qed.

Lemma stageLoop_step n command before s0 post st :
  simpleCommands command = before ++ s0 :: post →
  stageLoop invoke (S n) (length before) command st =
  '(status, s1, st1) ← launch command s0 st;
  let command' := set_simpleCommands (before ++ s1 :: post) command in
  if decide (status ≠ 0) then Returned (status, command', st1)
  else stageLoop invoke n (S (length before)) command' (closeDescriptors s1 st1).
Proof.
  intros Hs. simpl. unfold launch.
  rewrite Hs, list_lookup_middle by done.
  assert (Hins : ∀ x, <[length before := x]> (before ++ s0 :: post) = before ++ x :: post).
  { intros x. replace (length before) with (length before + 0)%nat at 1 by lia.
    by rewrite insert_app_r. }
  destruct (commandName (markNoWait command s0)); simpl.
  - destruct (execute (markNoWait command s0)); [|done].
    destruct (invoke _ _ _) as [[[status s1] st1]|]; [|done]. simpl.
    by rewrite Hins.
  - by rewrite Hins.
Qed.

Lemma stageLoop_0 i command st :
  stageLoop invoke 0 i command st = Returned (0, command, st).
Proof. done. Qed.

#[local] Opaque stageLoop.

Lemma stageLoop_succeed command run st run' st1 :
  succeed command run st run' st1 →
  ∀ cmd before post m,
    (∀ s0 st0, launch cmd s0 st0 = launch command s0 st0) →
    simpleCommands cmd = before ++ run ++ post →
    stageLoop invoke (length run + m) (length before) cmd st =
    stageLoop invoke m (length before + length run)
      (set_simpleCommands (before ++ run' ++ post) cmd) st1.
Proof.
  induction 1 as [st|s0 rest st s1 st1 rest' st2 Hl Hrest IH];
    intros cmd before post m Hsame Hs.
  - simpl. rewrite Nat.add_0_r. f_equal. destruct cmd. simpl in *. by subst.
  - simpl length. simpl in Hs.
    change (S (length rest) + m)%nat with (S (length rest + m)).
    rewrite (stageLoop_step _ _ _ _ _ _ Hs), Hsame, Hl. simpl.
    replace (S (length before)) with (length (before ++ [s1]))
      by (rewrite length_app; simpl; lia).
    rewrite (IH (set_simpleCommands (before ++ s1 :: rest ++ post) cmd)
                (before ++ [s1]) post m).
    + rewrite length_app. simpl. f_equal; [lia|].
      unfold set_simpleCommands. simpl. by rewrite <- (assoc_L (++)).
    + intros s2 st3. by rewrite launch_set_simpleCommands.
    + simpl. by rewrite <- (assoc_L (++)).
Qed.

Lemma executeCommand_fails command pre s0 post st pre' st1 status s1 st2 :
  nSimpleCommands command = length (simpleCommands command) →
  simpleCommands command = pre ++ s0 :: post →
  succeed command pre st pre' st1 →
  launch command s0 st1 = Returned (status, s1, st2) →
  status ≠ 0 →
  executeCommand invoke command st =
    Returned (status, set_simpleCommands (pre' ++ s1 :: post) command, st2).
Proof.
  intros Hn Hs Hpre Hl Hst. unfold executeCommand.
  assert (Hlen : length (pre ++ s0 :: post) ≠ 0%nat)
    by (rewrite length_app; simpl; lia).
  rewrite Hn, Hs.
  replace (match pre ++ s0 :: post with
           | [] => Returned (-1, command, st)
           | _ :: _ =>
             if decide (length (pre ++ s0 :: post) = 0%nat)
             then Returned (-1, command, st)
             else stageLoop invoke (length (pre ++ s0 :: post)) 0 command st
           end)
    with (stageLoop invoke (length (pre ++ s0 :: post)) 0 command st)
    by (rewrite (decide_False _ _ Hlen); by destruct pre).
  rewrite length_app. simpl length.
  pose proof (stageLoop_succeed _ _ _ _ _ Hpre command [] (s0 :: post)
                (S (length post)) (λ _ _, eq_refl)) as H1.
  simpl in H1. rewrite H1 by done.
  replace (length pre) with (length pre') by by eapply succeed_length.
  rewrite (stageLoop_step _ _ pre' s0 post) by done.
  rewrite launch_set_simpleCommands, Hl. simpl.
  by rewrite decide_True by done.
Qed.

Lemma executeCommand_succeeds command st all' st1 :
  nSimpleCommands command = length (simpleCommands command) →
  simpleCommands command ≠ [] →
  succeed command (simpleCommands command) st all' st1 →
  executeCommand invoke command st =
    Returned (0, set_simpleCommands all' command, st1).
Proof.
  intros Hn Hne Hall. unfold executeCommand.
  assert (Hlen : nSimpleCommands command ≠ 0%nat).
  { rewrite Hn. destruct (simpleCommands command); simpl; [done|lia]. }
  replace (match simpleCommands command with
           | [] => Returned (-1, command, st)
           | _ :: _ =>
             if decide (nSimpleCommands command = 0%nat)
             then Returned (-1, command, st)
             else stageLoop invoke (nSimpleCommands command) 0 command st
           end)
    with (stageLoop invoke (nSimpleCommands command) 0 command st)
    by (rewrite (decide_False _ _ Hlen); by destruct (simpleCommands command)).
  pose proof (stageLoop_succeed _ _ _ _ _ Hall command [] [] 0%nat
                (λ _ _, eq_refl)) as H1.
  rewrite !app_nil_r, Nat.add_0_r in H1. simpl in H1.
  rewrite Hn, H1 by done. apply stageLoop_0.
Qed.

#[local] Transparent stageLoop.

Lemma chainLoop_snoc chain :
  ∀ c lastStatus st r0 chain' st1 status c' st2,
    chainLoop invoke chain lastStatus st = Returned (r0, chain', st1) →
    executeCommand invoke c st1 = Returned (status, c', st2) →
    chainLoop invoke (chain ++ [c]) lastStatus st =
      Returned (status, chain' ++ [c'], st2).
Proof.
  induction chain as [|c0 chain IH];
    intros c lastStatus st r0 chain' st1 status c' st2 Hrun Hc; simpl in *.
  - injection Hrun as <- <- <-. by rewrite Hc.
  - destruct (executeCommand invoke c0 st) as [[[s0 c0'] st0]|]; [|done].
    simpl in *.
    destruct (chainLoop invoke chain s0 st0) as [[[r1 ch1] st1']|] eqn:E; [|done].
    simpl in Hrun. injection Hrun as <- <- <-.
    by rewrite (IH _ _ _ _ _ _ _ _ _ E Hc).
Qed.

End EngineFacts.

(** ** Chains, failing stages, descriptors, background pipelines *)

(** The terminator each pipeline of a line is closed at, in order:
    [Some t] for a chaining operator, [None] for the final [NULL]. *)
Fixpoint terminatorsOf (its : list Item) : list (option string) :=
  match its with
  | [] => [None]
  | ITerminator t :: its' =>
      Some t :: match its' with [] => [] | _ :: _ => terminatorsOf its' end
  | _ :: its' => terminatorsOf its'
  end.

Section EngineTheorems.
Context `{U : Utils} `{K : Kernel}.

Definition terminators (tokens : list string) : list (option string) :=
  match tokens with [] => [] | _ :: _ => terminatorsOf (items tokens) end.

Lemma closeCommand_operator terminator chain command s :
  chainingOperator <$> closeCommand terminator chain command s =
  (chainingOperator <$> chain) ++ [terminator].
Proof. unfold closeCommand, addCommandToChain. by rewrite fmap_app. Qed.

Lemma parseItems_terminators its :
  ∀ chain command s st chain' st',
    parseItems its chain command s st = (Some chain', st') →
    chainingOperator <$> chain' = (chainingOperator <$> chain) ++ terminatorsOf its.
Proof.
  induction its as [|it its IH]; intros chain command s st chain' st'.
  - simpl. intros [= <- <-]. apply closeCommand_operator.
  - destruct (isTerminator it) eqn:Hit.
    + destruct it as [t| | | | | |]; try done. simpl.
      destruct its as [|it' its'].
      * intros [= <- <-]. apply closeCommand_operator.
      * intros Hrun. apply IH in Hrun.
        by rewrite Hrun, closeCommand_operator, <- (assoc_L (++)).
    + rewrite parseItems_step by done.
      destruct (stepItem it command s st) as [[[command' s']|] st1]; [|done].
      intros Hrun. apply IH in Hrun. rewrite Hrun. by destruct it.
Qed.

(** C2.  A chain runs its pipelines in order, each in the state the one
    before it left, whatever status that one returned; the status of the
    chain is the status of its last pipeline, and 0 for no pipeline.  In
    a pipeline whose stages [pre] each report 0, the status [status] of
    the next stage, when it is not 0, is returned at once: the stages
    [post] after it are left as they were and no call follows the
    runner's.  When every stage reports 0 the pipeline returns 0. *)
Theorem chain_runs_every_pipeline (invoke : Runner) :
  (∀ st, executeCommandChain invoke (Some []) st = Returned (0, Some [], st)) ∧
  (∀ chain c st r0 chain' st1 status c' st2,
     executeCommandChain invoke (Some chain) st = Returned (r0, Some chain', st1) →
     executeCommand invoke c st1 = Returned (status, c', st2) →
     executeCommandChain invoke (Some (chain ++ [c])) st =
       Returned (status, Some (chain' ++ [c']), st2)) ∧
  (∀ c pre s0 post st pre' st1 status s1 st2,
     nSimpleCommands c = length (simpleCommands c) →
     simpleCommands c = pre ++ s0 :: post →
     succeed invoke c pre st pre' st1 →
     launch invoke c s0 st1 = Returned (status, s1, st2) →
     status ≠ 0 →
     executeCommand invoke c st =
       Returned (status, set_simpleCommands (pre' ++ s1 :: post) c, st2)) ∧
  (∀ c st all' st1,
     nSimpleCommands c = length (simpleCommands c) →
     simpleCommands c ≠ [] →
     succeed invoke c (simpleCommands c) st all' st1 →
     executeCommand invoke c st = Returned (0, set_simpleCommands all' c, st1)).
Proof.
  split_and!.
  - done.
  - intros chain c st r0 chain' st1 status c' st2 Hchain Hc.
    unfold executeCommandChain in *.
    destruct (chainLoop invoke chain 0 st) as [[[r1 ch1] st1']|] eqn:E; [|done].
    simpl in Hchain. injection Hchain as <- <- <-.
    by rewrite (chainLoop_snoc invoke _ _ _ _ _ _ _ _ _ _ E Hc).
  - intros. by eapply executeCommand_fails.
  - intros. by eapply executeCommand_succeeds.
Qed.

(** C3, as amended.  When the runner of a stage returns 0 (a stage
    launched in the background included), the parent makes the calls
    [closesOf]: it closes the stage's input descriptor when it is not
    [STDIN_FD], then its output descriptor when it is not [STDOUT_FD], and
    goes on with the next stage.  When the runner returns another status,
    [executeCommand] returns in the state the runner left: it closes
    nothing. *)
Theorem stage_descriptors_closed (invoke : Runner) (c : Command)
    (pre post : list SimpleCommand) (s0 : SimpleCommand) (st : St)
    (pre' : list SimpleCommand) (st1 : St) (status : Z) (s1 : SimpleCommand)
    (st2 : St) :
  nSimpleCommands c = length (simpleCommands c) →
  simpleCommands c = pre ++ s0 :: post →
  succeed invoke c pre st pre' st1 →
  launch invoke c s0 st1 = Returned (status, s1, st2) →
  (status ≠ 0 →
     executeCommand invoke c st =
       Returned (status, set_simpleCommands (pre' ++ s1 :: post) c, st2)) ∧
  (status = 0 →
     ∃ st3,
       trace st3 = trace st2 ++ closesOf s1 ∧
       succeed invoke c (pre ++ [s0]) st (pre' ++ [s1]) st3 ∧
       (post = [] →
          executeCommand invoke c st =
            Returned (0, set_simpleCommands (pre' ++ [s1]) c, st3))).
Proof.
  intros Hn Hs Hpre Hl. split.
  - intros Hst. by eapply executeCommand_fails.
  - intros ->. exists (closeDescriptors s1 st2).
    pose proof (succeed_snoc invoke _ _ _ _ _ _ _ _ Hpre Hl) as Hall.
    split_and!; [apply closeDescriptors_trace | done |].
    intros ->. apply executeCommand_succeeds; [done| |by rewrite Hs].
    rewrite Hs. by destruct pre.
Qed.

(** C7, as amended.  The pipelines of the returned chain carry, in order,
    the terminators of the line as their chaining operators, the
    background flag is set exactly for the background marker, and every
    stage leaves the parser with [noWait] 0.  [executeCommand] then marks
    the stages of a background pipeline one by one: each runner it calls
    receives its stage with [noWait] set to 1. *)
Theorem background_marking (invoke : Runner) :
  (∀ tokens st chain st',
     parseTokens tokens st = (Some chain, st') →
     chainingOperator <$> chain = terminators tokens ∧
     Forall (λ c, background c = backgroundOf (chainingOperator c) ∧
                  Forall (λ s, noWait s = 0) (simpleCommands c)) chain) ∧
  (∀ c st,
     background c = true →
     executeCommand invoke c st =
     executeCommand (λ f s st0, invoke f (set_noWait 1 s) st0) c st).
Proof.
  split.
  - intros [|t rest] st chain st'.
    + by intros [= <- <-].
    + rewrite parseTokens_items. intros Hrun. split.
      * by apply parseItems_terminators in Hrun.
      * apply parseItems_ok in Hrun as [Hok _];
          [|done|apply pipeline_ok_init|apply building_init].
        eapply Forall_impl; [exact Hok|]. intros c (_ & Hst & Hbg). split; [done|].
        eapply Forall_impl; [exact Hst|]. by intros s (? & ? & _ & _ & ? & _).
  - intros c st Hbg. unfold executeCommand.
    destruct (simpleCommands c) eqn:E; [done|]. clear E.
    case_decide as Hz; [done|]. clear Hz.
    generalize (nSimpleCommands c). intros n. generalize 0%nat.
    revert c st Hbg. induction n as [|n IH]; intros c st Hbg i; [done|].
    simpl. destruct (simpleCommands c !! i) as [s0|]; [|done].
    unfold markNoWait. rewrite Hbg.
    destruct (commandName (set_noWait 1 s0)); [|done].
    destruct (execute (set_noWait 1 s0)); [|done].
    change (set_noWait 1 (set_noWait 1 s0)) with (set_noWait 1 s0).
    destruct (invoke _ _ _) as [[[status stage'] st1]|]; [|done]. simpl.
    case_decide; [done|]. by apply IH.
Qed.

End EngineTheorems.

(** ** Sample lines on the reference platform *)
Module Samples.
Import Platform.

Definition st0 : St := boot [] [].

(** The chain and the state the parser leaves for a line. *)
Definition chainOf (line : string) : option CommandChain :=
  (parseTokens (tokenizeString line " ") st0).1.
Definition afterParsing (line : string) : St :=
  (parseTokens (tokenizeString line " ") st0).2.

(** The only pipeline of a line that has one. *)
Definition pipelineOf (line : string) : Command :=
  match chainOf line with Some [c] => c | _ => initCommand end.

Ltac not_in_trace :=
  let H := fresh in
  intros H;
  repeat (apply elem_of_cons in H as [H|H]; [discriminate H|]);
  by apply elem_of_nil in H.

Lemma chain_runs_every_pipeline_witness :
  ∃ r0 chain' st1 status c' st2,
    executeCommandChain (call 2) (Some [pipelineOf "badcmd"]) st0 =
      Returned (r0, Some chain', st1) ∧
    r0 = 1 ∧
    executeCommand (call 2) (pipelineOf "ls") st1 = Returned (status, c', st2) ∧
    executeCommandChain (call 2)
        (Some ([pipelineOf "badcmd"] ++ [pipelineOf "ls"])) st0 =
      Returned (status, Some (chain' ++ [c']), st2) ∧
    status = 0.
Proof.
  let v := eval vm_compute in
    (executeCommandChain (call 2) (Some [pipelineOf "badcmd"]) st0) in
  lazymatch v with
  | Returned (?r0, Some ?ch, ?st1) =>
    let w := eval vm_compute in (executeCommand (call 2) (pipelineOf "ls") st1) in
    lazymatch w with
    | Returned (?status, ?c', ?st2) =>
      exists r0, ch, st1, status, c', st2;
      assert (H1 : executeCommandChain (call 2) (Some [pipelineOf "badcmd"]) st0 =
                   Returned (r0, Some ch, st1)) by (vm_compute; reflexivity);
      assert (H2 : executeCommand (call 2) (pipelineOf "ls") st1 =
                   Returned (status, c', st2)) by (vm_compute; reflexivity);
      split_and!;
        [ exact H1 | reflexivity | exact H2
        | exact (proj1 (proj2 (chain_runs_every_pipeline (call 2)))
                   _ _ _ _ _ _ _ _ _ H1 H2)
        | reflexivity ]
    end
  end.
Defined.

Lemma stage_descriptors_closed_witness :
  ∃ s0 s1 st2 st3,
    simpleCommands (pipelineOf "ls > f") = [] ++ s0 :: [] ∧
    launch (call 2) (pipelineOf "ls > f") s0 (afterParsing "ls > f") =
      Returned (0, s1, st2) ∧
    trace st3 = trace st2 ++ [EvClose 3] ∧
    executeCommand (call 2) (pipelineOf "ls > f") (afterParsing "ls > f") =
      Returned (0, set_simpleCommands ([] ++ [s1]) (pipelineOf "ls > f"), st3).
Proof.
  let c := constr:(pipelineOf "ls > f") in
  let st := constr:(afterParsing "ls > f") in
  let l := eval vm_compute in (simpleCommands c) in
  lazymatch l with
  | [?s0] =>
    let v := eval vm_compute in (launch (call 2) c s0 st) in
    lazymatch v with
    | Returned (_, ?s1, ?st2) =>
      assert (Hn : nSimpleCommands c = length (simpleCommands c)) by reflexivity;
      assert (Hs : simpleCommands c = [] ++ s0 :: []) by (vm_compute; reflexivity);
      assert (Hl : launch (call 2) c s0 st = Returned (0, s1, st2))
        by (vm_compute; reflexivity);
      destruct (proj2 (stage_descriptors_closed (call 2) c [] [] s0 st [] st 0 s1 st2
                         Hn Hs (succeed_nil _ _ _) Hl) eq_refl)
        as (st3 & Htr & _ & Hrun);
      exists s0, s1, st2, st3;
      split_and!; [exact Hs | exact Hl | exact Htr | exact (Hrun eq_refl)]
    end
  end.
Defined.

(** C3, the claim as stated fails.  [badcmd > f]: the stage fails with
    status 1 and its output descriptor 3 is not closed.  [ls 2> f]: the
    stage succeeds and its error descriptor 3 is not closed. *)
Lemma failed_stage_keeps_descriptors :
  (∃ c s st',
     runLine 2 "badcmd > f" st0 = Returned (1, Some [c], st') ∧
     simpleCommands c = [s] ∧ outputFD s = 3 ∧ outputFD s ≠ STDOUT_FD ∧
     EvClose 3 ∉ trace st') ∧
  (∃ c s st',
     runLine 2 "ls 2> f" st0 = Returned (0, Some [c], st') ∧
     simpleCommands c = [s] ∧ stderrFD s = 3 ∧ stderrFD s ≠ STDERR_FD ∧
     EvClose 3 ∉ trace st').
Proof.
  split.
  - eexists _, _, _. split; [vm_compute; reflexivity|].
    split_and!; [reflexivity | reflexivity | done | not_in_trace].
  - eexists _, _, _. split; [vm_compute; reflexivity|].
    split_and!; [reflexivity | reflexivity | done | not_in_trace].
Qed.

Lemma background_marking_witness :
  (∃ c st', parseTokens ["ls"; "&"] st0 = (Some [c], st') ∧
            chainingOperator c = Some "&" ∧ background c = true) ∧
  executeCommand (call 2) (pipelineOf "ls &") (afterParsing "ls &") =
  executeCommand (λ f s st, call 2 f (set_noWait 1 s) st)
    (pipelineOf "ls &") (afterParsing "ls &").
Proof.
  split.
  - let v := eval vm_compute in (parseTokens ["ls"; "&"] st0) in
    lazymatch v with
    | (Some [?c], ?st') =>
      assert (H : parseTokens ["ls"; "&"] st0 = (Some [c], st'))
        by (vm_compute; reflexivity);
      destruct (proj1 (background_marking (call 2)) _ _ _ _ H) as [Hop Hbg];
      exists c, st'; split_and!; [exact H | reflexivity | reflexivity]
    end.
  - exact (proj2 (background_marking (call 2)) (pipelineOf "ls &")
             (afterParsing "ls &") eq_refl).
Defined.

(** C7, the claim as stated fails.  After parsing [ls &] the pipeline is
    a background pipeline and its stage has [noWait] 0.  After running
    [cd a b | ls &], where [cd] fails, the stage [ls] still has [noWait]
    0. *)
Lemma background_stage_not_marked :
  (∃ c s st',
     parseTokens ["ls"; "&"] st0 = (Some [c], st') ∧
     background c = true ∧ simpleCommands c = [s] ∧ noWait s = 0) ∧
  (∃ c s1 s2 st',
     runLine 2 "cd a b | ls &" st0 = Returned (-1, Some [c], st') ∧
     background c = true ∧ simpleCommands c = [s1; s2] ∧ noWait s2 = 0).
Proof.
  split.
  - eexists _, _, _. split; [vm_compute; reflexivity|]. by split_and!.
  - eexists _, _, _, _. split; [vm_compute; reflexivity|]. by split_and!.
Qed.

End Samples.

(** ** The history builtin *)

Section HistoryFacts.
Context `{U : Utils} `{K : Kernel}.

Lemma walk_zero curr :
  ∀ ctr, 1 ≤ ctr → ctr + Z.of_nat (length curr) ≤ UINT_MODULUS →
         walk curr ctr 0 = Stopped NullDereference.
Proof.
  induction curr as [|command next IH]; intros ctr Hpos Hfit; [done|].
  simpl. rewrite decide_True by lia.
  destruct next as [|command' next']; [done|].
  simpl length in *. apply IH.
  - rewrite Z.mod_small; unfold UINT_MODULUS in *; lia.
  - rewrite Z.mod_small; unfold UINT_MODULUS in *; simpl length; lia.
Qed.

(** Position 0 of a store that is not empty: the walk runs off the list
    and [curr->command] dereferences [NULL]. *)
Lemma get_command_zero list :
  nodes list ≠ [] → 0 ≤ size list →
  Z.of_nat (length (nodes list)) < UINT_MODULUS →
  get_command list 0 = Stopped NullDereference.
Proof.
  intros Hne Hsize Hfit. unfold get_command.
  destruct (nodes list) as [|c l] eqn:E; [done|].
  rewrite decide_False by lia. apply walk_zero; [lia|].
  unfold UINT_MODULUS in *. lia.
Qed.

(** A position beyond the store is answered with [NULL]. *)
Lemma get_command_beyond list index :
  size list < index → get_command list index = Returned None.
Proof.
  intros Hbig. unfold get_command. destruct (nodes list); [done|].
  by rewrite decide_True.
Qed.

Lemma setUpFD_standard st :
  setUpFD STDIN_FD STDOUT_FD STDERR_FD st = (0, st).
Proof. done. Qed.

Lemma resetFD_standard st :
  originalStdinFD (shell st) = STDIN_FD →
  originalStdoutFD (shell st) = STDOUT_FD →
  originalStderrFD (shell st) = STDERR_FD →
  resetFD st = Returned st.
Proof.
  intros H1 H2 H3. unfold resetFD, restoreStream.
  rewrite H1. simpl. rewrite H2. simpl. by rewrite H3.
Qed.

(** The part of C5 the code keeps: a position above the size of the
    store (and within [int]) is reported as an error, status [-1], and
    the store is as it was. *)
Lemma history_index_beyond (invoke : Runner) s st st1 a :
  argc s = 2%nat → arg1 s = Returned a → allDigits a = true →
  setUpFD (inputFD s) (outputFD s) (stderrFD s) st = (0, st1) →
  0 ≤ size (historyList (shell st1)) →
  size (historyList (shell st1)) < decimal 0 a → decimal 0 a ≤ INT_MAX →
  history invoke s st =
    Returned (-1, s, print ("history: invalid index" +:+ newline) st1) ∧
  historyList (shell (print ("history: invalid index" +:+ newline) st1)) =
    historyList (shell st1).
Proof.
  intros Hc Ha Hd Hfd H0 Hbig Hint. split; [|done].
  unfold history. rewrite Hc, Hfd. simpl. rewrite Ha. simpl.
  unfold lookupHistory, atoi. rewrite Hd, decide_True by done. simpl.
  rewrite Z.mod_small by (unfold INT_MAX, UINT_MODULUS in *; lia).
  by rewrite get_command_beyond.
Qed.

(** The other part of C5 the code keeps: [history] alone on an empty
    store returns 0 and writes nothing; the state is as it was. *)
Lemma history_empty_store (invoke : Runner) s st :
  argc s = 1%nat →
  inputFD s = STDIN_FD → outputFD s = STDOUT_FD → stderrFD s = STDERR_FD →
  originalStdinFD (shell st) = STDIN_FD →
  originalStdoutFD (shell st) = STDOUT_FD →
  originalStderrFD (shell st) = STDERR_FD →
  nodes (historyList (shell st)) = [] →
  history invoke s st = Returned (0, s, st).
Proof.
  intros Hc Hi Ho He H1 H2 H3 Hempty. unfold history.
  rewrite Hc, Hi, Ho, He, setUpFD_standard. simpl.
  rewrite Hempty. simpl. by rewrite resetFD_standard.
Qed.

(** C10.  When [history] has been given one argument, the descriptors
    are set up, the reference resolves to the line [line], and the chain
    parsed from that line is run and returns with status [status],
    [history] returns 0: [status] is dropped.  (A line the parser rejects
    is the case [commandChain = None], where the engine returns [-1].) *)
Theorem history_reentry_status (invoke : Runner) (s : SimpleCommand) (st : St)
    (a line : string) (st1 : St) (commandChain : option CommandChain) (st2 : St)
    (status : Z) (chain' : option CommandChain) (st3 : St) :
  (argc s ≤ 2)%nat → argc s ≠ 1%nat →
  setUpFD (inputFD s) (outputFD s) (stderrFD s) st = (0, st1) →
  arg1 s = Returned a →
  lookupHistory (historyList (shell st1)) a = Returned (Some line) →
  parseTokens (tokenizeString line " ") st1 = (commandChain, st2) →
  executeCommandChain invoke commandChain st2 = Returned (status, chain', st3) →
  history invoke s st = Returned (0, s, st3).
Proof.
  intros Hc2 Hc1 Hfd Ha Hlook Hparse Hrun. unfold history.
  rewrite decide_False by lia. rewrite Hfd. simpl.
  rewrite decide_False by done. rewrite Ha. simpl. rewrite Hlook. simpl.
  rewrite Hparse, Hrun. done.
Qed.

End HistoryFacts.

Module HistorySamples.
Import Platform.

(** The stage the parser builds for [!n] or [history n]. *)
Definition historyStage (reference : string) : SimpleCommand :=
  {| commandName := Some "history";
     args := [Some "history"; Some reference; None]; argc := 2;
     inputFD := STDIN_FD; outputFD := STDOUT_FD; stderrFD := STDERR_FD;
     noWait := 0; execute := Some ptr_history; pid := -1 |}.

Lemma history_reentry_status_witness :
  ∃ chain' st3,
    executeCommandChain (call 2)
      (parseTokens (tokenizeString "badcmd" " ") (boot [] ["badcmd"])).1
      (parseTokens (tokenizeString "badcmd" " ") (boot [] ["badcmd"])).2
      = Returned (1, chain', st3) ∧
    history (call 2) (historyStage "1") (boot [] ["badcmd"]) =
      Returned (0, historyStage "1", st3).
Proof.
  set (st := boot [] ["badcmd"]).
  let v := eval vm_compute in
    (executeCommandChain (call 2)
       (parseTokens (tokenizeString "badcmd" " ") st).1
       (parseTokens (tokenizeString "badcmd" " ") st).2) in
  lazymatch v with
  | Returned (?status, ?ch, ?st3) =>
    assert (Hrun : executeCommandChain (call 2)
              (parseTokens (tokenizeString "badcmd" " ") st).1
              (parseTokens (tokenizeString "badcmd" " ") st).2
            = Returned (status, ch, st3)) by (vm_compute; reflexivity);
    exists ch, st3; split; [exact Hrun|];
    refine (history_reentry_status (call 2) (historyStage "1") st "1" "badcmd" st
              _ _ status ch st3 _ _ _ _ _ _ Hrun);
    [ simpl; lia | discriminate | reflexivity | reflexivity
    | vm_compute; reflexivity | apply surjective_pairing ]
  end.
Defined.

(** C5, at the failing input: with one entry in the store, position 0 is
    not answered with an error: [get_command] dereferences [NULL], and so
    does the interpreter on the lines [history 0] and [!0]. *)
Theorem history_zero_index :
  get_command {| nodes := ["ls"]; size := 1 |} 0 = Stopped NullDereference ∧
  history (call 2) (historyStage "0") (boot [] ["ls"]) = Stopped NullDereference ∧
  runLine 2 "history 0" (boot [] []) = Stopped NullDereference ∧
  runLine 2 "!0" (boot [] []) = Stopped NullDereference.
Proof. split_and!; vm_compute; reflexivity. Qed.

End HistorySamples.

(** ** Fuel

    [call] spends one unit of fuel per nested re-entry through [history];
    a call that returns with some fuel returns the same with more. *)
Section Fuel.
Context `{U : Utils} `{K : Kernel}.

(** [invoke2] returns whatever [invoke1] returns. *)
Definition extends (invoke1 invoke2 : Runner) : Prop :=
  ∀ f s st r, invoke1 f s st = Returned r → invoke2 f s st = Returned r.

Lemma stageLoop_extends invoke1 invoke2 n :
  extends invoke1 invoke2 →
  ∀ i command st r,
    stageLoop invoke1 n i command st = Returned r →
    stageLoop invoke2 n i command st = Returned r.
Proof.
  intros Hext. induction n as [|n IH]; intros i command st r; simpl; [done|].
  destruct (simpleCommands command !! i) as [s0|]; [|done].
  destruct (commandName (markNoWait command s0)); [|done].
  destruct (execute (markNoWait command s0)) as [f|]; [|done].
  destruct (invoke1 f (markNoWait command s0) st) as [[[status s1] st1]|] eqn:E;
    [|done].
  rewrite (Hext _ _ _ _ E). simpl. case_decide; [done|]. apply IH.
Qed.

Lemma executeCommand_extends invoke1 invoke2 command st r :
  extends invoke1 invoke2 →
  executeCommand invoke1 command st = Returned r →
  executeCommand invoke2 command st = Returned r.
Proof.
  intros Hext. unfold executeCommand. destruct (simpleCommands command); [done|].
  case_decide; [done|]. by apply stageLoop_extends.
Qed.

Lemma chainLoop_extends invoke1 invoke2 commands :
  extends invoke1 invoke2 →
  ∀ lastStatus st r,
    chainLoop invoke1 commands lastStatus st = Returned r →
    chainLoop invoke2 commands lastStatus st = Returned r.
Proof.
  intros Hext. induction commands as [|c next IH]; intros lastStatus st r; simpl;
    [done|].
  destruct (executeCommand invoke1 c st) as [[[status c'] st1]|] eqn:E; [|done].
  rewrite (executeCommand_extends _ _ _ _ _ Hext E). simpl.
  destruct (chainLoop invoke1 next status st1) as [[[r1 next'] st2]|] eqn:E1;
    [|done].
  by rewrite (IH _ _ _ E1).
Qed.

Lemma executeCommandChain_extends invoke1 invoke2 chain st r :
  extends invoke1 invoke2 →
  executeCommandChain invoke1 chain st = Returned r →
  executeCommandChain invoke2 chain st = Returned r.
Proof.
  intros Hext. unfold executeCommandChain. destruct chain as [commands|]; [|done].
  destruct (chainLoop invoke1 commands 0 st) as [[[r1 c1] st1]|] eqn:E; [|done].
  by rewrite (chainLoop_extends _ _ _ Hext _ _ _ E).
Qed.

Lemma history_extends invoke1 invoke2 s st r :
  extends invoke1 invoke2 →
  history invoke1 s st = Returned r → history invoke2 s st = Returned r.
Proof.
  intros Hext. unfold history. case_decide; [done|].
  destruct (setUpFD _ _ _ st) as [r0 st1]. case_decide; [done|].
  case_decide; [done|].
  destruct (arg1 s) as [a|]; [|done]. simpl.
  destruct (lookupHistory _ a) as [[line|]|]; try done. simpl.
  destruct (parseTokens _ st1) as [commandChain st2].
  destruct (executeCommandChain invoke1 commandChain st2)
    as [[[status ch] st3]|] eqn:E; [|done].
  by rewrite (executeCommandChain_extends _ _ _ _ _ Hext E).
Qed.

Lemma call_more_fuel fuel : extends (call fuel) (call (S fuel)).
Proof.
  induction fuel as [|fuel IH]; intros f s st r; [done|].
  change (call (S (S fuel)) f s st) with
    (match f with
     | ptr_cd => cd s st
     | ptr_pwd => pwd s st
     | ptr_exitShell => exitShell s st
     | ptr_history => history (call (S fuel)) s st
     | ptr_prompt => prompt s st
     | ptr_executeProcess => executeProcess s st
     end).
  simpl. destruct f; try done. by apply history_extends.
Qed.

End Fuel.

(** * Further properties of the code *)

(** ** The dispatch table and the stage array *)

(** X1.  [getExecutionFunction] answers [executeProcess] exactly for the
    names that are none of ["cd"], ["pwd"], ["exit"], ["history"],
    ["prompt"], and each of these five names gets its own builtin (the
    name of [exitShell] is ["exit"]). *)
Theorem getExecutionFunction_table (name : string) :
  (getExecutionFunction name = ptr_executeProcess ↔
     name ∉ ["cd"; "pwd"; "exit"; "history"; "prompt"]) ∧
  getExecutionFunction "cd" = ptr_cd ∧
  getExecutionFunction "pwd" = ptr_pwd ∧
  getExecutionFunction "exit" = ptr_exitShell ∧
  getExecutionFunction "history" = ptr_history ∧
  getExecutionFunction "prompt" = ptr_prompt.
Proof.
  split; [|by split_and!].
  unfold getExecutionFunction, commandRegistry. cbn [lookupRegistry].
  rewrite !not_elem_of_cons.
  destruct (String.eqb_spec "cd" name) as [<-|H1];
    [split; [discriminate | by intros [? _]]|].
  destruct (String.eqb_spec "pwd" name) as [<-|H2];
    [split; [discriminate | by intros (_ & ? & _)]|].
  destruct (String.eqb_spec "exit" name) as [<-|H3];
    [split; [discriminate | by intros (_ & _ & ? & _)]|].
  destruct (String.eqb_spec "history" name) as [<-|H4];
    [split; [discriminate | by intros (_ & _ & _ & ? & _)]|].
  destruct (String.eqb_spec "prompt" name) as [<-|H5];
    [split; [discriminate | by intros (_ & _ & _ & _ & ? & _)]|].
  split; [|done]. intros _. split_and!; try congruence. apply not_elem_of_nil.
Qed.

(** X2.  On a pipeline whose count is the number of its stages,
    [addSimpleCommand] puts the stage after the ones already there and
    counts it; the stages already there, the background flag and the
    chaining operator stay. *)
Theorem addSimpleCommand_appends (command : Command) (s : SimpleCommand) :
  nSimpleCommands command = length (simpleCommands command) →
  simpleCommands (addSimpleCommand command s) = simpleCommands command ++ [s] ∧
  nSimpleCommands (addSimpleCommand command s) =
    length (simpleCommands (addSimpleCommand command s)) ∧
  background (addSimpleCommand command s) = background command ∧
  chainingOperator (addSimpleCommand command s) = chainingOperator command.
Proof.
  intros Hn. destruct (addSimpleCommand_snoc command s Hn) as (E1 & E2 & E3 & E4).
  split_and!; try done. rewrite E1, E2, length_app. simpl. lia.
Qed.

Lemma addSimpleCommand_appends_witness :
  nSimpleCommands initCommand = length (simpleCommands initCommand) ∧
  simpleCommands (addSimpleCommand initCommand initSimpleCommand) =
    simpleCommands initCommand ++ [initSimpleCommand].
Proof.
  split; [reflexivity|].
  apply (addSimpleCommand_appends initCommand initSimpleCommand eq_refl).
Defined.

(** ** The history store *)

(** A store as [add_to_history] keeps it: [size] counts the nodes, and
    fits the [unsigned int] positions are given in. *)
Definition store_ok (list : HistoryList) : Prop :=
  size list = Z.of_nat (length (nodes list)) ∧ size list < UINT_MODULUS.

Lemma walk_finds curr :
  ∀ ctr k entry,
    curr !! k = Some entry → 0 ≤ ctr →
    ctr + Z.of_nat (length curr) ≤ UINT_MODULUS →
    walk curr ctr (ctr + Z.of_nat k) = Returned (Some entry).
Proof.
  induction curr as [|command next IH]; intros ctr k entry Hk Hpos Hfit; [done|].
  simpl. destruct k as [|k]; simpl in Hk.
  - injection Hk as ->. rewrite decide_False by lia. done.
  - rewrite decide_True by lia.
    assert (Hlen : (k < length next)%nat) by by eapply lookup_lt_Some.
    simpl length in Hfit.
    rewrite Z.mod_small by (unfold UINT_MODULUS in *; lia).
    replace (ctr + Z.of_nat (S k)) with (ctr + 1 + Z.of_nat k) by lia.
    apply IH; [done|lia|lia].
Qed.

Lemma get_command_position list k entry :
  store_ok list → nodes list !! k = Some entry →
  get_command list (Z.of_nat k + 1) = Returned (Some entry).
Proof.
  intros [Hsize Hfit] Hk. unfold get_command.
  assert (Hlen : (k < length (nodes list))%nat) by by eapply lookup_lt_Some.
  destruct (nodes list) as [|c l] eqn:E; [done|]. rewrite <- E in *.
  rewrite decide_False by lia.
  replace (Z.of_nat k + 1) with (1 + Z.of_nat k) by lia.
  apply walk_finds; [done|lia|lia].
Qed.

(** X3.  In a store whose [size] counts its nodes, a position from 1 to
    [size] is answered with the entry at that place, counted from the
    oldest. *)
Theorem get_command_in_range (list : HistoryList) (k : nat) (entry : string) :
  store_ok list → nodes list !! k = Some entry →
  get_command list (Z.of_nat k + 1) = Returned (Some entry).
Proof. apply get_command_position. Qed.

Lemma get_command_in_range_witness :
  store_ok {| nodes := ["ls"; "pwd"]; size := 2 |} ∧
  get_command {| nodes := ["ls"; "pwd"]; size := 2 |} 2 = Returned (Some "pwd").
Proof.
  assert (H : store_ok {| nodes := ["ls"; "pwd"]; size := 2 |}) by (split; reflexivity).
  split; [exact H|].
  exact (get_command_in_range {| nodes := ["ls"; "pwd"]; size := 2 |} 1 "pwd" H eq_refl).
Defined.

(** X4.  [add_to_history] with a command returns 0 and appends: the new
    command is answered at position [size + 1], every earlier position is
    answered as before, and [size] still counts the nodes.  With [NULL] it
    returns [-1] and the store is as it was. *)
Theorem add_to_history_get (list : HistoryList) (command : string) :
  store_ok list → size list + 1 < UINT_MODULUS →
  (add_to_history list (Some command)).1 = 0 ∧
  store_ok (add_to_history list (Some command)).2 ∧
  get_command (add_to_history list (Some command)).2 (size list + 1) =
    Returned (Some command) ∧
  (∀ k entry, nodes list !! k = Some entry →
     get_command (add_to_history list (Some command)).2 (Z.of_nat k + 1) =
       Returned (Some entry)) ∧
  add_to_history list None = (-1, list).
Proof.
  intros [Hsize Hfit] Hroom.
  assert (Hok : store_ok (add_to_history list (Some command)).2).
  { split; simpl; [|done]. rewrite length_app. simpl. lia. }
  split_and!; try done.
  - rewrite Hsize.
    apply get_command_position; [done|]. simpl.
    by rewrite lookup_app_r, Nat.sub_diag by lia.
  - intros k entry Hk. apply get_command_position; [done|]. simpl.
    by apply lookup_app_l_Some.
Qed.

Lemma add_to_history_get_witness :
  store_ok {| nodes := ["ls"]; size := 1 |} ∧
  get_command (add_to_history {| nodes := ["ls"]; size := 1 |} (Some "pwd")).2 2 =
    Returned (Some "pwd").
Proof.
  assert (H : store_ok {| nodes := ["ls"]; size := 1 |}) by (split; reflexivity).
  split; [exact H|].
  exact (proj1 (proj2 (proj2
    (add_to_history_get {| nodes := ["ls"]; size := 1 |} "pwd" H eq_refl)))).
Defined.

Lemma lastWithPrefix_last prefix curr :
  ∀ lastCommand,
    lastWithPrefix curr prefix lastCommand =
    match last (filter (λ c, String.prefix prefix c = true) curr) with
    | Some c => Some c
    | None => lastCommand
    end.
Proof.
  induction curr as [|command next IH]; intros lastCommand; [done|].
  simpl. rewrite IH, filter_cons.
  destruct (String.prefix prefix command) eqn:E.
  - rewrite decide_True by done. rewrite last_cons. by destruct (last _).
  - by rewrite decide_False by done.
Qed.

(** X5.  [find_last_command_with_prefix] answers the last entry, in the
    order of the store, that starts with the prefix, and [NULL] when no
    entry does. *)
Theorem find_last_command_with_prefix_last (list : HistoryList) (prefix : string) :
  find_last_command_with_prefix list prefix =
  last (filter (λ c, String.prefix prefix c = true) (nodes list)).
Proof.
  unfold find_last_command_with_prefix. destruct (nodes list) eqn:E; [done|].
  rewrite lastWithPrefix_last. by destruct (last _).
Qed.

(** ** More about the parser *)

(** The calls that hand out descriptors. *)
Definition creates (e : Event) : Prop :=
  match e with EvPipe _ _ | EvOpen _ _ _ => True | _ => False end.

(** A token of the form ['!' :: c :: more]. *)
Definition isBang (t : string) : bool :=
  match t with String "!" (String _ _) => true | _ => false end.

(** Items that leave a stage without a name as it is, when they are
    accepted. *)
Definition keepsUnnamed (it : Item) : bool :=
  match it with IWord _ | ITerminator _ => false | _ => true end.

(** Items after which a new stage starts: none at all, a chaining
    operator, a pipe operator. *)
Definition startsStage (its : list Item) : Prop :=
  match last its with
  | None | Some (ITerminator _) | Some (IPipe _) => True
  | Some _ => False
  end.

#[local] Transparent pushArgs.

Lemma pushArgs_named arg s :
  commandName s ≠ None → commandName (pushArgs arg s).2 ≠ None.
Proof. unfold pushArgs. simpl. by case_decide. Qed.

#[local] Opaque pushArgs.

Lemma pushAll_named paths :
  ∀ s, commandName s ≠ None → commandName (pushAll paths s).2 ≠ None.
Proof.
  induction paths as [|p paths IH]; intros s Hs; [done|]. simpl.
  pose proof (pushArgs_status p s) as Hst. pose proof (pushArgs_named p s Hs) as Hn.
  destruct (pushArgs p s) as [r s1]. simpl in *. subst r.
  rewrite decide_True by done. by apply IH.
Qed.

Lemma pushAll_app l1 l2 :
  ∀ s, (pushAll (l1 ++ l2) s).2 = (pushAll l2 (pushAll l1 s).2).2.
Proof.
  induction l1 as [|p l1 IH]; intros s; [done|]. simpl.
  pose proof (pushArgs_status p s) as Hst.
  destruct (pushArgs p s) as [r s1]. simpl in *. subst r.
  rewrite decide_True by done. apply IH.
Qed.

Section ParserExtras.
Context `{U : Utils} `{K : Kernel}.

Lemma stepItem_creates it command s st :
  ∃ evs, trace (stepItem it command s st).2 = trace st ++ evs ∧
         Forall creates evs ∧
         shell (stepItem it command s st).2 = shell st.
Proof.
  assert (Hnone : ∃ evs, trace st = trace st ++ evs ∧ Forall creates evs ∧
                         shell st = shell st).
  { exists []. by rewrite app_nil_r. }
  assert (Hredirect : ∀ file flags bind,
    ∃ evs, trace (redirect file flags bind st).2 = trace st ++ evs ∧
           Forall creates evs ∧ shell (redirect file flags bind st).2 = shell st).
  { intros file flags bind. unfold redirect. destruct file as [name|]; [|done].
    unfold open. destruct (sys_open name flags (world st)) as [fd w].
    exists [EvOpen name flags fd].
    case_decide; simpl; split_and!; try done; by apply Forall_singleton. }
  destruct it as [t|t|t file|t file|t file|t|t]; simpl; try done.
  - destruct (commandName s); [|done]. case_decide; [done|].
    unfold pipe. destruct (sys_pipe (world st)) as [[pipeFD|] w]; simpl; [|done].
    exists [EvPipe pipeFD.1 pipeFD.2]. split_and!; try done.
    by apply Forall_singleton.
  - destruct (commandName s); [|done]. case_decide; [done|].
    destruct (Hredirect file
                (if IS_APPEND t then O_WRONLY_CREAT_APPEND else O_WRONLY_CREAT_TRUNC)
                (λ fd, set_outputFD fd s)) as (evs & ? & ? & ?).
    destruct (redirect _ _ _ st) as [r st1]. by exists evs.
  - case_decide; [done|].
    destruct (Hredirect file O_RDONLY (λ fd, set_inputFD fd s)) as (evs & ? & ? & ?).
    destruct (redirect _ _ _ st) as [r st1]. by exists evs.
  - case_decide; [done|].
    destruct (Hredirect file O_WRONLY_CREAT_TRUNC (λ fd, set_stderrFD fd s))
      as (evs & ? & ? & ?).
    destruct (redirect _ _ _ st) as [r st1]. by exists evs.
Qed.

Lemma parseItems_creates its :
  ∀ chain command s st,
    ∃ evs, trace (parseItems its chain command s st).2 = trace st ++ evs ∧
           Forall creates evs ∧
           shell (parseItems its chain command s st).2 = shell st.
Proof.
  induction its as [|it its IH]; intros chain command s st.
  - exists []. by rewrite app_nil_r.
  - destruct (isTerminator it) eqn:Hit.
    + destruct it as [t| | | | | |]; try done. simpl.
      destruct its as [|it' its']; [|apply IH].
      exists []. by rewrite app_nil_r.
    + rewrite parseItems_step by done.
      destruct (stepItem_creates it command s st) as (evs1 & Htr1 & Hc1 & Hsh1).
      destruct (stepItem it command s st) as [[[command' s']|] st1]; simpl in *.
      * destruct (IH chain command' s' st1) as (evs2 & Htr2 & Hc2 & Hsh2).
        exists (evs1 ++ evs2). split_and!.
        -- by rewrite Htr2, Htr1, (assoc_L (++)).
        -- by apply Forall_app.
        -- congruence.
      * by exists evs1.
Qed.

(** X6.  Whatever the line and whether it is accepted or rejected,
    [parseTokens] only creates pipes and opens files: it closes and
    duplicates no descriptor, writes nothing, and leaves the interpreter's
    own state as it was.  (So the descriptors created for a line that is
    then rejected stay open.) *)
Theorem parseTokens_only_creates (tokens : list string) (st : St) :
  ∃ evs, trace (parseTokens tokens st).2 = trace st ++ evs ∧
         Forall creates evs ∧
         shell (parseTokens tokens st).2 = shell st.
Proof.
  destruct tokens as [|t rest].
  - exists []. by rewrite app_nil_r.
  - rewrite parseTokens_items. apply parseItems_creates.
Qed.

Lemma word_unnamed_plain t s st :
  commandName s ≠ None ∨ isBang t = false →
  word t s st =
  match sys_glob (removeQuotes t) (world st) with
  | Some gl_pathv => Some (pushAll gl_pathv s).2
  | None => None
  end.
Proof.
  intros Hcase.
  assert (Hglob :
    match sys_glob (removeQuotes t) (world st) with
    | Some gl_pathv =>
        let '(r, s0) := pushAll gl_pathv s in
        if decide (r ≠ 0) then None else Some s0
    | None => None
    end =
    match sys_glob (removeQuotes t) (world st) with
    | Some gl_pathv => Some (pushAll gl_pathv s).2
    | None => None
    end).
  { destruct (sys_glob _ _) as [paths|]; [|done].
    destruct (pushAll_spec paths s) as (H1 & _).
    destruct (pushAll paths s) as [r s0]. simpl in *. subst r.
    by rewrite decide_False by (intros Hc; by apply Hc). }
  unfold word. destruct (commandName s) as [name|] eqn:Hn; [exact Hglob|].
  destruct Hcase as [?|Hb]; [done|].
  destruct t as [|a t']; [exact Hglob|].
  destruct (Ascii.eqb_spec a "!") as [->|Hne].
  - destruct t' as [|c more]; [exact Hglob|done].
  - rewrite <- Hglob. clear Hglob Hb.
    destruct a as [[] [] [] [] [] [] [] []]; try done.
Qed.

Lemma parseItems_plain_words others :
  ∀ paths chain command s st,
    Forall (λ t, plainWord t = true) others →
    commandName s ≠ None →
    mapM (λ t, sys_glob (removeQuotes t) (world st)) others = Some paths →
    parseItems (items others) chain command s st =
      (Some (closeCommand None chain command (pushAll (concat paths) s).2), st).
Proof.
  induction others as [|t others IH]; intros paths chain command s st Hw Hn Hg.
  - simpl in Hg. injection Hg as <-. done.
  - apply Forall_cons in Hw as [Ht Hw]. simpl in Hg.
    destruct (sys_glob (removeQuotes t) (world st)) as [p|] eqn:Hp; [|done].
    simpl in Hg.
    destruct (mapM _ others) as [ps|] eqn:Hps; [|done]. simpl in Hg.
    injection Hg as <-.
    rewrite (items_plainWord _ _ Ht), parseItems_step by done. simpl.
    rewrite word_unnamed_plain by (by left). rewrite Hp. simpl.
    rewrite (IH ps) by (done || by apply pushAll_named).
    by rewrite pushAll_app.
Qed.

(** X7.  A line of plain words whose first word is not a history
    reference, each word globbing successfully, is accepted with the
    state as it was and yields one foreground pipeline of one stage: its
    arguments are the paths of all the words in order, its name is the
    first path, its runner the one the table gives for that name, and its
    descriptors are the interpreter's. *)
Theorem parse_simple_command (first : string) (others : list string)
    (st : St) (paths : list (list string)) :
  Forall (λ t, plainWord t = true) (first :: others) →
  isBang first = false →
  mapM (λ t, sys_glob (removeQuotes t) (world st)) (first :: others) = Some paths →
  ∃ c stage name,
    parseTokens (first :: others) st = (Some [c], st) ∧
    simpleCommands c = [stage] ∧ nSimpleCommands c = 1%nat ∧
    background c = false ∧ chainingOperator c = None ∧
    head (concat paths) = Some name ∧
    stage_holds (concat paths) stage ∧
    execute stage = Some (getExecutionFunction name) ∧
    inputFD stage = STDIN_FD ∧ outputFD stage = STDOUT_FD ∧
    stderrFD stage = STDERR_FD ∧ noWait stage = 0 ∧ pid stage = -1.
Proof.
  intros Hw Hb Hg. apply Forall_cons in Hw as [Ht Hw]. simpl in Hg.
  destruct (sys_glob (removeQuotes first) (world st)) as [p|] eqn:Hp; [|done].
  simpl in Hg. destruct (mapM _ others) as [ps|] eqn:Hps; [|done]. simpl in Hg.
  injection Hg as <-.
  pose proof (sys_glob_paths _ _ _ Hp) as Hne.
  destruct (pushAll_spec p initSimpleCommand) as (_ & Hw1 & Hh1).
  specialize (Hh1 [] initSimpleCommand_holds). simpl in Hh1.
  assert (Hnamed : commandName (pushAll p initSimpleCommand).2 ≠ None).
  { destruct Hh1 as (_ & -> & _). by destruct p. }
  rewrite parseTokens_items, (items_plainWord _ _ Ht), parseItems_step by done.
  simpl. rewrite word_unnamed_plain by (by right). rewrite Hp. simpl.
  rewrite (parseItems_plain_words others ps) by done.
  rewrite <- pushAll_app.
  destruct (pushAll_spec (p ++ concat ps) initSimpleCommand) as (_ & Hw2 & Hh2).
  specialize (Hh2 [] initSimpleCommand_holds). simpl in Hh2.
  set (s := (pushAll (p ++ concat ps) initSimpleCommand).2) in *.
  assert (Hb2 : building s).
  { destruct Hw2 as (_ & _ & _ & E1 & _ & E2). split; [by eexists|].
    by rewrite E1, E2. }
  destruct (closeCommand_snoc None initCommandChain initCommand s
              pipeline_ok_init Hb2) as (c & Hc & (Hn & _ & Hbg) & Hop & Hst).
  destruct p as [|name p']; [done|].
  assert (Hname : commandName s = Some name) by by destruct Hh2 as (_ & -> & _).
  rewrite Hname in Hst. simpl in Hst.
  exists c, (set_execute (Some (getExecutionFunction name)) s), name.
  destruct Hw2 as (E1 & E2 & E3 & E4 & E5 & E6).
  split_and!; try done.
  - by rewrite Hc.
  - by rewrite Hn, Hst.
  - by rewrite Hbg, Hop.
Qed.

Lemma unnamed_stage_pipe t its2 mid :
  ∀ chain command s st,
    commandName s = None →
    Forall (λ it, keepsUnnamed it = true) mid →
    (parseItems (mid ++ IPipe t :: its2) chain command s st).1 = None.
Proof.
  induction mid as [|it mid IH]; intros chain command s st Hn Hmid.
  - simpl. by rewrite Hn.
  - apply Forall_cons in Hmid as [Hit Hmid].
    rewrite <- app_comm_cons, parseItems_step by by destruct it.
    destruct (stepItem it command s st) as [[[command' s']|] st1] eqn:Hstep;
      [|done].
    apply IH; [|done].
    destruct it as [t0|t0|t0 file|t0 file|t0 file|t0|t0]; simpl in Hstep; try done.
    + by rewrite Hn in Hstep.
    + by rewrite Hn in Hstep.
    + case_decide; [done|]. unfold redirect in Hstep.
      destruct file; [|done]. destruct (open _ _ st). case_decide; [done|].
      simpl in Hstep. by injection Hstep as <- <- <-.
    + case_decide; [done|]. unfold redirect in Hstep.
      destruct file; [|done]. destruct (open _ _ st). case_decide; [done|].
      simpl in Hstep. by injection Hstep as <- <- <-.
    + by injection Hstep as <- <- <-.
Qed.

Lemma parseItems_terminator t its chain command s st :
  its ≠ [] →
  parseItems (ITerminator t :: its) chain command s st =
  parseItems its (closeCommand (Some t) chain command s) initCommand
    initSimpleCommand st.
Proof. by destruct its. Qed.

Lemma stage_start_pipe t its2 mid its1 :
  Forall (λ it, keepsUnnamed it = true) mid →
  startsStage its1 →
  ∀ chain command s st,
    (its1 = [] → commandName s = None) →
    (parseItems (its1 ++ mid ++ IPipe t :: its2) chain command s st).1 = None.
Proof.
  intros Hmid. induction its1 as [|it its1 IH]; intros Hstart chain command s st Hs.
  - by apply unnamed_stage_pipe; auto.
  - assert (Hrest : its1 ≠ [] → startsStage its1).
    { intros Hne. unfold startsStage in *. rewrite last_cons in Hstart.
      by destruct (last its1) eqn:E; [|apply last_None in E]. }
    destruct (isTerminator it) eqn:Hit.
    + destruct it as [t0| | | | | |]; try done.
      rewrite <- app_comm_cons, parseItems_terminator by by destruct its1, mid.
      destruct its1 as [|it1 its1'].
      * by apply unnamed_stage_pipe.
      * by apply IH; auto.
    + rewrite <- app_comm_cons, parseItems_step by done.
      destruct (stepItem it command s st) as [[[command' s']|] st1] eqn:Hstep;
        [|done].
      destruct its1 as [|it1 its1'].
      * apply unnamed_stage_pipe; [|done].
        unfold startsStage in Hstart. simpl in Hstart.
        destruct it as [t0|t0|t0 file|t0 file|t0 file|t0|t0]; try done.
        simpl in Hstep. destruct (commandName s); [|done].
        case_decide; [done|]. destruct (pipe st) as [[pipeFD|] st2]; [|done].
        by injection Hstep as <- <- <-.
      * by apply IH; auto.
Qed.

(** X8.  A pipe operator needs a command word in its stage: when, since
    the start of the line, the last chaining operator or the last pipe
    operator, the line has only blank tokens and redirections before a
    pipe operator, the line is rejected. *)
Theorem pipe_without_command (tokens : list string) (st : St)
    (its1 mid its2 : list Item) (t : string) :
  items tokens = its1 ++ mid ++ IPipe t :: its2 →
  startsStage its1 →
  Forall (λ it, keepsUnnamed it = true) mid →
  (parseTokens tokens st).1 = None.
Proof.
  intros Hits Hstart Hmid. destruct tokens as [|t0 rest].
  - by destruct its1, mid.
  - rewrite parseTokens_items, Hits. by apply stage_start_pipe.
Qed.

(** X9.  A line of blank tokens only is accepted by the parser and then
    fails in the engine: the chain has one pipeline with no stage, for
    which [executeCommandChain] returns [-1]; no runner is called and the
    state is as before the line. *)
Theorem blank_line_status (invoke : Runner) (blanks : list string) (st : St) :
  blanks ≠ [] →
  Forall (λ t, blankToken t = true) blanks →
  ∃ chain,
    parseTokens blanks st = (Some chain, st) ∧
    executeCommandChain invoke (Some chain) st = Returned (-1, Some chain, st).
Proof.
  intros Hne Hblank. destruct blanks as [|t rest]; [done|].
  rewrite parseTokens_items.
  rewrite <- (app_nil_r (t :: rest)), parseItems_blanks by done.
  eexists. split; [reflexivity|]. done.
Qed.

End ParserExtras.

Lemma parse_simple_command_witness :
  Forall (λ t, plainWord (U := Platform.utils) t = true) ["echo"; "hi"] ∧
  isBang "echo" = false ∧
  ∃ c stage,
    parseTokens (U := Platform.utils) ["echo"; "hi"] (Platform.boot [] []) =
      (Some [c], Platform.boot [] []) ∧
    simpleCommands c = [stage] ∧ stage_holds ["echo"; "hi"] stage.
Proof.
  assert (H1 : Forall (λ t, plainWord (U := Platform.utils) t = true) ["echo"; "hi"])
    by (repeat constructor).
  split_and!; [exact H1 | reflexivity |].
  destruct (parse_simple_command (U := Platform.utils) "echo" ["hi"]
              (Platform.boot [] []) [["echo"]; ["hi"]] H1 eq_refl eq_refl)
    as (c & stage & name & Hrun & Hst & _ & _ & _ & _ & Hh & _).
  by exists c, stage.
Defined.

Lemma pipe_without_command_witness :
  items (U := Platform.utils) ["ls"; "|"; ""; "|"; "wc"] =
    [IWord "ls"; IPipe "|"] ++ [IBlank ""] ++ IPipe "|" :: [IWord "wc"] ∧
  (parseTokens (U := Platform.utils) ["ls"; "|"; ""; "|"; "wc"]
     (Platform.boot [] [])).1 = None.
Proof.
  assert (H : items (U := Platform.utils) ["ls"; "|"; ""; "|"; "wc"] =
              [IWord "ls"; IPipe "|"] ++ [IBlank ""] ++ IPipe "|" :: [IWord "wc"])
    by reflexivity.
  split; [exact H|].
  apply (pipe_without_command (U := Platform.utils) _ _ _ _ _ _ H); [exact I|].
  by repeat constructor.
Defined.

Lemma blank_line_status_witness :
  [""; ""] ≠ [] ∧
  Forall (λ t, blankToken (U := Platform.utils) t = true) [""; ""] ∧
  ∃ chain,
    parseTokens (U := Platform.utils) [""; ""] (Platform.boot [] []) =
      (Some chain, Platform.boot [] []) ∧
    executeCommandChain (call (U := Platform.utils) (K := Platform.kernel) 1) (Some chain) (Platform.boot [] []) =
      Returned (-1, Some chain, Platform.boot [] []).
Proof.
  assert (H1 : [""; ""] ≠ @nil string) by discriminate.
  assert (H2 : Forall (λ t, blankToken (U := Platform.utils) t = true) [""; ""])
    by (repeat constructor).
  split_and!; [exact H1 | exact H2 |].
  exact (blank_line_status (U := Platform.utils) (call (U := Platform.utils) (K := Platform.kernel) 1) [""; ""]
           (Platform.boot [] []) H1 H2).
Defined.

(** ** More about the builtins *)

Section BuiltinExtras.
Context `{U : Utils} `{K : Kernel}.

(** X10.  [exitShell] never returns success.  When it returns, the
    status is [-1], the stage, the system and the interpreter's state are
    as before (only text was written), and the reason is one of two: more
    than one argument, or an argument that is not all digits. *)
Theorem exitShell_returns (s s' : SimpleCommand) (st st' : St) (r : Z) :
  exitShell s st = Returned (r, s', st') →
  r = -1 ∧ s' = s ∧ world st' = world st ∧ shell st' = shell st ∧
  ((2 < argc s)%nat ∨
   ∃ a, args s !! 1%nat = Some (Some a) ∧ allDigits a = false).
Proof.
  unfold exitShell. case_decide.
  - intros [= <- <- <-]. split_and!; try done. by left.
  - case_decide; [done|]. unfold arg1.
    destruct (args s !! 1%nat) as [[a|]|]; simpl; try done.
    destruct (allDigits a) eqn:Ha.
    + unfold atoi. by case_decide.
    + intros [= <- <- <-]. split_and!; try done. right. by exists a.
Qed.

(** X11.  [prompt] touches nothing but the prompt text: the stage, the
    system, the history store and the saved descriptors are as before.
    It returns [0] exactly when the stage has one argument, which is then
    the new prompt, and [-1] with the interpreter's state unchanged when
    the stage has none or more than one. *)
Theorem prompt_effect (s s' : SimpleCommand) (st st' : St) (r : Z) :
  prompt s st = Returned (r, s', st') →
  s' = s ∧ world st' = world st ∧
  historyList (shell st') = historyList (shell st) ∧
  originalStdinFD (shell st') = originalStdinFD (shell st) ∧
  originalStdoutFD (shell st') = originalStdoutFD (shell st) ∧
  originalStderrFD (shell st') = originalStderrFD (shell st) ∧
  ((r = 0 ∧ argc s ≠ 1%nat ∧ (argc s ≤ 2)%nat ∧ trace st' = trace st ∧
    args s !! 1%nat = Some (Some (prompt_buffer (shell st')))) ∨
   (r = -1 ∧ shell st' = shell st ∧ (argc s = 1%nat ∨ (2 < argc s)%nat))).
Proof.
  unfold prompt. case_decide.
  - intros [= <- <- <-]. split_and!; try done. right. auto.
  - case_decide.
    + intros [= <- <- <-]. split_and!; try done. right. auto.
    + unfold arg1. destruct (args s !! 1%nat) as [[a|]|]; simpl; try done.
      case_decide; [|done].
      intros [= <- <- <-]. split_and!; try done. left.
      split_and!; try done. lia.
Qed.

(** X12.  [cd] without an argument is [cd] with the home directory as
    its argument: the two calls return the same status and leave the same
    state. *)
Theorem cd_home_default (name home : string) (s : SimpleCommand) (st : St) :
  stage_holds [name] s →
  sys_getenv_HOME (world st) = Some home →
  ∃ r st',
    cd s st = Returned (r, s, st') ∧
    cd (pushArgs home s).2 st = Returned (r, (pushArgs home s).2, st').
Proof.
  intros Hh Hhome.
  destruct (pushArgs_holds [name] home s Hh) as (Hc2 & _ & Ha2).
  destruct Hh as (Hc & _ & _). simpl in *.
  unfold cd, arg1. rewrite Hc, Hc2, Ha2, Hhome. simpl.
  destruct (sys_chdir (Some home) (world st)) as [r w].
  case_decide; by eexists _, _.
Qed.


Lemma printHistory_trace curr :
  ∀ i st,
    printHistory curr i st =
    {| world := world st;
       trace := trace st ++
                imap (λ k command,
                        EvPrint (pretty (i + Z.of_nat k) +:+ " " +:+ command +:+
                                 newline)) curr;
       shell := shell st |}.
Proof.
  induction curr as [|command next IH]; intros i st; simpl.
  - rewrite app_nil_r. by destruct st.
  - rewrite IH. simpl. f_equal. rewrite <- (assoc_L (++)). simpl.
    rewrite Z.add_0_r. do 2 f_equal. apply imap_ext. intros k c _.
    unfold compose.
    by replace (i + 1 + Z.of_nat k) with (i + Z.of_nat (S k)) by lia.
Qed.



End BuiltinExtras.

Module BuiltinSamples.
Import Platform.

Definition stageOf (words : list string) : SimpleCommand :=
  (pushAll words initSimpleCommand).2.

Lemma exitShell_returns_witness :
  ∃ st', exitShell (stageOf ["exit"; "now"]) (boot [] []) =
           Returned (-1, stageOf ["exit"; "now"], st') ∧
         shell st' = shell (boot [] []).
Proof.
  assert (H : exitShell (stageOf ["exit"; "now"]) (boot [] []) =
              Returned (-1, stageOf ["exit"; "now"],
                print ("exit: Expects a numerical argument" +:+ newline)
                  (print ("exit" +:+ newline) (boot [] []))))
    by (vm_compute; reflexivity).
  destruct (exitShell_returns _ _ _ _ _ H) as (_ & _ & _ & Hsh & _).
  eexists. split; [exact H | exact Hsh].
Defined.

Lemma prompt_effect_witness :
  ∃ st', prompt (stageOf ["prompt"; "$"]) (boot [] []) =
           Returned (0, stageOf ["prompt"; "$"], st') ∧
         historyList (shell st') = historyList (shell (boot [] [])).
Proof.
  assert (H : prompt (stageOf ["prompt"; "$"]) (boot [] []) =
              Returned (0, stageOf ["prompt"; "$"],
                set_shell (set_prompt_buffer "$" (shell (boot [] []))) (boot [] [])))
    by (vm_compute; reflexivity).
  destruct (prompt_effect _ _ _ _ _ H) as (_ & _ & Hh & _).
  eexists. split; [exact H | exact Hh].
Defined.

Lemma cd_home_default_witness :
  stage_holds ["cd"] (stageOf ["cd"]) ∧
  ∃ r st',
    cd (stageOf ["cd"]) (boot [] []) = Returned (r, stageOf ["cd"], st') ∧
    cd (pushArgs "/home" (stageOf ["cd"])).2 (boot [] []) =
      Returned (r, (pushArgs "/home" (stageOf ["cd"])).2, st').
Proof.
  assert (H : stage_holds ["cd"] (stageOf ["cd"])).
  { split_and!; vm_compute; reflexivity. }
  split; [exact H|].
  exact (cd_home_default "cd" "/home" (stageOf ["cd"]) (boot [] []) H eq_refl).
Defined.




End BuiltinSamples.

(** ** More about the engine and the loop of [main] *)

(** The lines of a script up to the first line [exit]. *)
Fixpoint beforeExit (lines : list string) : list string :=
  match lines with
  | [] => []
  | input :: rest => if decide (input = "exit") then [] else input :: beforeExit rest
  end.

Lemma bind_returned {A B} (m : Run A) (k : A → Run B) (b : B) :
  m ≫= k = Returned b → ∃ a, m = Returned a ∧ k a = Returned b.
Proof. destruct m as [a|why]; [by exists a | done]. Qed.

Section EngineExtras.
Context `{U : Utils} `{K : Kernel}.

(** Two pipelines that differ in what their stages hold at most. *)
Definition same_shape (c c' : Command) : Prop :=
  nSimpleCommands c' = nSimpleCommands c ∧
  background c' = background c ∧
  chainingOperator c' = chainingOperator c ∧
  length (simpleCommands c') = length (simpleCommands c).

(** A runner that leaves the history store alone. *)
Definition keeps_history (invoke : Runner) : Prop :=
  ∀ f s st r s' st',
    invoke f s st = Returned (r, s', st') →
    historyList (shell st') = historyList (shell st).

Lemma stageLoop_shape invoke n :
  ∀ i command st r command' st',
    stageLoop invoke n i command st = Returned (r, command', st') →
    same_shape command command'.
Proof.
  induction n as [|n IH]; intros i command st r command' st'; simpl.
  - by intros [= _ <- _].
  - destruct (simpleCommands command !! i) as [s0|]; [|done].
    destruct (commandName (markNoWait command s0)).
    + destruct (execute (markNoWait command s0)) as [f|]; [|done].
      destruct (invoke f _ st) as [[[status s1] st1]|]; [|done]. simpl.
      case_decide.
      * intros [= _ <- _]. unfold same_shape. simpl.
        by rewrite length_insert.
      * intros Hrun. apply IH in Hrun as (H1 & H2 & H3 & H4).
        unfold same_shape. simpl in *. by rewrite length_insert in H4.
    + intros [= _ <- _]. unfold same_shape. simpl. by rewrite length_insert.
Qed.

Lemma executeCommand_shape invoke command st r command' st' :
  executeCommand invoke command st = Returned (r, command', st') →
  same_shape command command'.
Proof.
  unfold executeCommand. destruct (simpleCommands command) eqn:E.
  - by intros [= _ <- _].
  - case_decide; [by intros [= _ <- _]|]. apply stageLoop_shape.
Qed.

Lemma chainLoop_shape invoke commands :
  ∀ lastStatus st r commands' st',
    chainLoop invoke commands lastStatus st = Returned (r, commands', st') →
    Forall2 same_shape commands commands'.
Proof.
  induction commands as [|c next IH]; intros lastStatus st r commands' st'; simpl.
  - intros [= _ <- _]. constructor.
  - intros Hrun. apply bind_returned in Hrun as ([[status c'] st1] & Hc & Hrun).
    apply bind_returned in Hrun as ([[result next'] st2] & Hn & Hrun).
    injection Hrun as _ <- _. constructor.
    + by eapply executeCommand_shape.
    + by eapply IH.
Qed.

(** X16.  Whatever the runners do, the engine keeps the shape of the
    chain it runs: the same number of pipelines, in each the same number
    of stages, the same stage count, the same background flag and the
    same chaining operator.  Only what the stages hold can differ. *)
Theorem executeCommandChain_shape (invoke : Runner) (commands : CommandChain)
    (st st' : St) (r : Z) (chain' : option CommandChain) :
  executeCommandChain invoke (Some commands) st = Returned (r, chain', st') →
  ∃ commands', chain' = Some commands' ∧ Forall2 same_shape commands commands'.
Proof.
  unfold executeCommandChain. intros Hrun.
  apply bind_returned in Hrun as ([[lastStatus commands'] st1] & Hc & Hrun).
  injection Hrun as _ <- _. exists commands'. split; [done|].
  by eapply chainLoop_shape.
Qed.

Lemma bindStream_history fd std save st :
  (∀ v sh, historyList (save v sh) = historyList sh) →
  historyList (shell (bindStream fd std save st).2) = historyList (shell st).
Proof.
  intros Hsave. unfold bindStream, dup, dup2. case_decide; [|done].
  destruct (sys_dup std (world st)) as [saved w1]. simpl.
  destruct (sys_dup2 fd std w1) as [r w2]. simpl.
  case_decide; simpl; apply Hsave.
Qed.

Lemma setUpFD_history i o e st :
  historyList (shell (setUpFD i o e st).2) = historyList (shell st).
Proof.
  unfold setUpFD.
  pose proof (bindStream_history i STDIN_FD set_originalStdinFD st
                (λ _ _, eq_refl)) as H1.
  destruct (bindStream i STDIN_FD set_originalStdinFD st) as [r1 st1].
  simpl in H1. case_decide; [done|].
  pose proof (bindStream_history o STDOUT_FD set_originalStdoutFD st1
                (λ _ _, eq_refl)) as H2.
  destruct (bindStream o STDOUT_FD set_originalStdoutFD st1) as [r2 st2].
  simpl in H2. case_decide; [simpl; congruence|].
  rewrite (bindStream_history e STDERR_FD set_originalStderrFD st2
             (λ _ _, eq_refl)).
  congruence.
Qed.

Lemma restoreStream_shell original std st st' :
  restoreStream original std st = Returned st' → shell st' = shell st.
Proof.
  unfold restoreStream, dup2. case_decide; [|by intros [= <-]].
  destruct (sys_dup2 original std (world st)) as [r w]. simpl.
  case_decide; [done|]. by intros [= <-].
Qed.

Lemma resetFD_shell st st' : resetFD st = Returned st' → shell st' = shell st.
Proof.
  unfold resetFD. intros Hrun.
  apply bind_returned in Hrun as (st1 & H1 & Hrun).
  apply bind_returned in Hrun as (st2 & H2 & H3).
  apply restoreStream_shell in H1, H2, H3. congruence.
Qed.

Lemma closeDescriptors_shell s st : shell (closeDescriptors s st) = shell st.
Proof. unfold closeDescriptors. by repeat case_decide. Qed.

Lemma parseTokens_shell tokens st :
  shell (parseTokens tokens st).2 = shell st.
Proof.
  destruct tokens as [|t rest]; [done|]. rewrite parseTokens_items.
  by destruct (parseItems_creates (items (t :: rest)) initCommandChain initCommand
                 initSimpleCommand st) as (evs & _ & _ & Hsh).
Qed.

Lemma stageLoop_history invoke n :
  keeps_history invoke →
  ∀ i command st r command' st',
    stageLoop invoke n i command st = Returned (r, command', st') →
    historyList (shell st') = historyList (shell st).
Proof.
  intros Hk. induction n as [|n IH]; intros i command st r command' st'; simpl.
  - by intros [= _ _ <-].
  - destruct (simpleCommands command !! i) as [s0|]; [|done].
    destruct (commandName (markNoWait command s0)); [|by intros [= _ _ <-]].
    destruct (execute (markNoWait command s0)) as [f|]; [|done].
    destruct (invoke f _ st) as [[[status s1] st1]|] eqn:E; [|done]. simpl.
    apply Hk in E. case_decide.
    + by intros [= _ _ <-].
    + intros Hrun. apply IH in Hrun.
      by rewrite Hrun, closeDescriptors_shell.
Qed.

Lemma chainLoop_history invoke commands :
  keeps_history invoke →
  ∀ lastStatus st r commands' st',
    chainLoop invoke commands lastStatus st = Returned (r, commands', st') →
    historyList (shell st') = historyList (shell st).
Proof.
  intros Hk.
  induction commands as [|c next IH]; intros lastStatus st r commands' st'; simpl.
  - by intros [= _ _ <-].
  - intros Hrun. apply bind_returned in Hrun as ([[status c'] st1] & Hc & Hrun).
    apply bind_returned in Hrun as ([[result next'] st2] & Hn & Hrun).
    injection Hrun as _ _ <-. apply IH in Hn. rewrite Hn.
    unfold executeCommand in Hc. destruct (simpleCommands c).
    + by injection Hc as _ _ <-.
    + case_decide; [by injection Hc as _ _ <-|].
      by eapply stageLoop_history.
Qed.

Lemma executeCommandChain_history invoke chain st r chain' st' :
  keeps_history invoke →
  executeCommandChain invoke chain st = Returned (r, chain', st') →
  historyList (shell st') = historyList (shell st).
Proof.
  intros Hk. destruct chain as [commands|]; simpl; [|by intros [= _ _ <-]].
  intros Hrun.
  apply bind_returned in Hrun as ([[lastStatus commands'] st1] & Hc & Hrun).
  injection Hrun as _ _ <-. by eapply chainLoop_history.
Qed.

Lemma history_keeps invoke s st r s' st' :
  keeps_history invoke →
  history invoke s st = Returned (r, s', st') →
  historyList (shell st') = historyList (shell st).
Proof.
  intros Hk. unfold history. case_decide; [by intros [= _ _ <-]|].
  pose proof (setUpFD_history (inputFD s) (outputFD s) (stderrFD s) st) as Hset.
  destruct (setUpFD (inputFD s) (outputFD s) (stderrFD s) st) as [r0 st1].
  simpl in Hset. case_decide; [intros [= _ _ <-]; done|].
  case_decide.
  - intros Hrun. apply bind_returned in Hrun as (st2 & Hreset & Hrun).
    injection Hrun as _ _ <-. apply resetFD_shell in Hreset.
    rewrite Hreset, printHistory_trace. simpl. done.
  - intros Hrun. apply bind_returned in Hrun as (a & _ & Hrun).
    apply bind_returned in Hrun as (input & _ & Hrun).
    destruct input as [line|]; [|by injection Hrun as _ _ <-].
    pose proof (parseTokens_shell (tokenizeString line " ") st1) as Hparse.
    destruct (parseTokens (tokenizeString line " ") st1) as [commandChain st2].
    simpl in Hparse.
    apply bind_returned in Hrun as ([[status chain'] st3] & Hexec & Hrun).
    injection Hrun as _ _ <-.
    apply (executeCommandChain_history _ _ _ _ _ _ Hk) in Hexec. congruence.
Qed.

Lemma call_keeps fuel : keeps_history (call fuel).
Proof.
  induction fuel as [|fuel IH]; intros f s st r s' st'; simpl; [done|].
  destruct f.
  - unfold cd. case_decide; [by intros [= _ _ <-]|].
    intros Hrun. apply bind_returned in Hrun as (path & _ & Hrun).
    destruct (sys_chdir path (world st)) as [r0 w].
    case_decide; by injection Hrun as _ _ <-.
  - unfold pwd. case_decide; [by intros [= _ _ <-]|].
    destruct (sys_getcwd (world st)) as [dir|]; [|by intros [= _ _ <-]].
    pose proof (setUpFD_history (inputFD s) (outputFD s) (stderrFD s) st) as Hset.
    destruct (setUpFD (inputFD s) (outputFD s) (stderrFD s) st) as [r0 st1].
    simpl in Hset. case_decide; [intros [= _ _ <-]; done|].
    intros Hrun. apply bind_returned in Hrun as (st2 & Hreset & Hrun).
    injection Hrun as _ _ <-. apply resetFD_shell in Hreset.
    by rewrite Hreset.
  - unfold exitShell. case_decide; [by intros [= _ _ <-]|].
    case_decide; [done|].
    intros Hrun. apply bind_returned in Hrun as (a & _ & Hrun).
    destruct (allDigits a).
    + by apply bind_returned in Hrun as (z & _ & Hrun).
    + by injection Hrun as _ _ <-.
  - by apply history_keeps.
  - unfold prompt. case_decide; [by intros [= _ _ <-]|].
    case_decide; [by intros [= _ _ <-]|].
    intros Hrun. apply bind_returned in Hrun as (a & _ & Hrun).
    case_decide; [|done]. by injection Hrun as _ _ <-.
  - unfold executeProcess. destruct (sys_fork s (world st)) as [child w].
    case_decide; [by intros [= _ _ <-]|]. case_decide; [done|].
    case_decide; [|by intros [= _ _ <-]]. simpl.
    destruct (sys_waitpid child w) as [[exitStatus|] w2];
      [case_decide|]; by intros [= _ _ <-].
Qed.

(** X17.  No builtin and no external command changes the history
    store: whatever a call through an [execute] pointer does, re-entry
    through [history] included, the store is the same when it returns. *)
Theorem call_keeps_history (fuel : nat) (f : ExecutionFunction)
    (s s' : SimpleCommand) (st st' : St) (r : Z) :
  call fuel f s st = Returned (r, s', st') →
  historyList (shell st') = historyList (shell st).
Proof. apply call_keeps. Qed.

Lemma runLine_history fuel input st r chain' st' :
  runLine fuel input st = Returned (r, chain', st') →
  historyList (shell st') =
    {| nodes := nodes (historyList (shell st)) ++ [input];
       size := size (historyList (shell st)) + 1 |}.
Proof.
  unfold runLine. simpl.
  set (st0 := set_shell _ st).
  pose proof (parseTokens_shell (tokenizeString input " ") st0) as Hparse.
  destruct (parseTokens (tokenizeString input " ") st0) as [commandChain st1].
  simpl in Hparse. intros Hrun.
  apply (executeCommandChain_history _ _ _ _ _ _ (call_keeps fuel)) in Hrun.
  by rewrite Hrun, Hparse.
Qed.

(** X18.  When the loop of [main] comes to its end, the history store
    holds what it held before followed by the lines that were run, in
    order: the lines before the first [exit] that are not empty.  Lines
    re-entered through [history] are not recorded again, and the size
    field grows by the number of lines recorded. *)
Theorem mainLoop_history (fuel : nat) (lines : list string) (st st' : St) :
  mainLoop fuel lines st = Returned st' →
  nodes (historyList (shell st')) =
    nodes (historyList (shell st)) ++ filter (λ input, input ≠ "") (beforeExit lines) ∧
  size (historyList (shell st')) =
    size (historyList (shell st)) +
    Z.of_nat (length (filter (λ input, input ≠ "") (beforeExit lines))).
Proof.
  revert st. induction lines as [|input rest IH]; intros st; simpl.
  - intros [= <-]. rewrite app_nil_r. split; [done | lia].
  - destruct (decide (input = "")) as [->|Hne].
    + intros Hrun. rewrite decide_False by done.
      rewrite filter_cons_False by (intros Hc; by apply Hc). by apply IH.
    + destruct (decide (input = "exit")) as [->|Hnx].
      * intros [= <-]. rewrite filter_nil, app_nil_r. split; [done | simpl; lia].
      * intros Hrun.
        apply bind_returned in Hrun as ([[status chain'] st1] & Hline & Hrun).
        apply runLine_history in Hline. apply IH in Hrun as [Hn Hs].
        rewrite filter_cons_True by done. rewrite Hn, Hs, Hline. simpl.
        split; [by rewrite <- (assoc_L (++)) | lia].
Qed.

(** X19.  The line [exit] ends the loop of [main] like the end of the
    script: the lines after it are not run.  Empty lines are skipped: a
    script and the script without them run alike. *)
Theorem mainLoop_exit_and_blank (fuel : nat) (pre post : list string) (st : St) :
  mainLoop fuel (pre ++ "exit" :: post) st = mainLoop fuel pre st ∧
  mainLoop fuel (filter (λ input, input ≠ "") pre) st = mainLoop fuel pre st.
Proof.
  split.
  - revert st. induction pre as [|input rest IH]; intros st; simpl; [done|].
    case_decide; [apply IH|]. case_decide; [done|].
    destruct (runLine fuel input st) as [[[status chain'] st1]|]; [|done].
    simpl. apply IH.
  - revert st. induction pre as [|input rest IH]; intros st; simpl; [done|].
    destruct (decide (input = "")) as [->|Hne].
    + by rewrite filter_cons_False by (intros Hc; by apply Hc).
    + rewrite filter_cons_True by done. simpl. rewrite decide_False by done.
      case_decide; [done|].
      destruct (runLine fuel input st) as [[[status chain'] st1]|]; [|done].
      simpl. apply IH.
Qed.

End EngineExtras.

Module EngineSamples.
Import Platform.

Lemma executeCommandChain_shape_witness :
  ∃ chain r commands' st',
    parseTokens ["ls"; "|"; "wc"; "&"; "pwd"] (boot [] []) = (Some chain, st') ∧
    (∃ st'', executeCommandChain (call 1) (Some chain) st' =
               Returned (r, Some commands', st'')) ∧
    Forall2 same_shape chain commands'.
Proof.
  pose (parsed := parseTokens ["ls"; "|"; "wc"; "&"; "pwd"] (boot [] [])).
  let v := eval vm_compute in parsed in
  lazymatch v with
  | (Some ?chain, ?st1) =>
      assert (Hparse : parseTokens ["ls"; "|"; "wc"; "&"; "pwd"] (boot [] []) =
                       (Some chain, st1)) by (vm_compute; reflexivity);
      let w := eval vm_compute in (executeCommandChain (call 1) (Some chain) st1) in
      lazymatch w with
      | Returned (?r, Some ?commands', ?st2) =>
          assert (Hrun : executeCommandChain (call 1) (Some chain) st1 =
                         Returned (r, Some commands', st2))
            by (vm_compute; reflexivity);
          exists chain, r, commands', st1
      end
  end.
  split; [exact Hparse|]. split; [eexists; exact Hrun|].
  destruct (executeCommandChain_shape _ _ _ _ _ _ Hrun) as (c' & [= <-] & Hshape).
  exact Hshape.
Defined.

Lemma call_keeps_history_witness :
  ∃ r s' st',
    call 2 ptr_history (BuiltinSamples.stageOf ["history"; "1"])
      (boot [] ["pwd"]) = Returned (r, s', st') ∧
    historyList (shell st') = historyList (shell (boot [] ["pwd"])).
Proof.
  pose (run := call 2 ptr_history (BuiltinSamples.stageOf ["history"; "1"])
                 (boot [] ["pwd"])).
  let v := eval vm_compute in run in
  lazymatch v with
  | Returned (?r, ?s1, ?st1) =>
      assert (Hrun : call 2 ptr_history (BuiltinSamples.stageOf ["history"; "1"])
                       (boot [] ["pwd"]) = Returned (r, s1, st1))
        by (vm_compute; reflexivity);
      exists r, s1, st1
  end.
  split; [exact Hrun|]. exact (call_keeps_history _ _ _ _ _ _ _ Hrun).
Defined.

Lemma mainLoop_history_witness :
  ∃ st',
    mainLoop 2 ["pwd"; ""; "history 1"; "exit"; "ls"] (boot [] []) = Returned st' ∧
    nodes (historyList (shell st')) = ["pwd"; "history 1"] ∧
    size (historyList (shell st')) = 2.
Proof.
  pose (run := mainLoop 2 ["pwd"; ""; "history 1"; "exit"; "ls"] (boot [] [])).
  let v := eval vm_compute in run in
  lazymatch v with
  | Returned ?st1 =>
      assert (Hrun : mainLoop 2 ["pwd"; ""; "history 1"; "exit"; "ls"] (boot [] []) =
                     Returned st1) by (vm_compute; reflexivity);
      exists st1
  end.
  split; [exact Hrun|]. exact (mainLoop_history _ _ _ _ Hrun).
Defined.

End EngineSamples.

(** ** Redirections and the history listing *)

(** Items that bind the output of a stage. *)
Definition bindsOutput (it : Item) : bool :=
  match it with IOutput _ _ | IPipe _ => true | _ => false end.

Lemma string_app_cons (c : ascii) (d s : string) :
  String c d +:+ s = String c (d +:+ s).
Proof. reflexivity. Qed.

Lemma string_app_nil_r (d : string) : d +:+ "" = d.
Proof. induction d as [|c d IH]; [done|]. by rewrite string_app_cons, IH. Qed.

Lemma string_app_snoc (d : string) (c : ascii) (s : string) :
  (d +:+ String c "") +:+ s = d +:+ String c s.
Proof. induction d as [|c' d IH]; [done|]. by rewrite !string_app_cons, IH. Qed.

Lemma decimal_app (d : string) :
  ∀ acc s, decimal acc (d +:+ s) = decimal (decimal acc d) s.
Proof.
  induction d as [|c d IH]; intros acc s; [done|].
  rewrite string_app_cons. simpl. apply IH.
Qed.

Lemma allDigits_app (d s : string) :
  allDigits (d +:+ s) = allDigits d && allDigits s.
Proof.
  induction d as [|c d IH]; [done|].
  rewrite string_app_cons. simpl. by rewrite IH, andb_assoc.
Qed.

Lemma pretty_N_char_digit (x : N) :
  (x < 10)%N →
  isDigit (pretty_N_char x) = true ∧
  Z.of_nat (nat_of_ascii (pretty_N_char x)) - 48 = Z.of_N x.
Proof.
  intros Hx.
  assert (∃ n, (n < 10)%nat ∧ x = N.of_nat n) as (n & Hn & ->)
    by (exists (N.to_nat x); lia).
  do 10 (destruct n as [|n]; [by vm_compute|]). lia.
Qed.

Lemma pretty_N_go_digits (x : N) :
  ∀ s, ∃ d, pretty_N_go x s = d +:+ s ∧ allDigits d = true ∧
            decimal 0 d = Z.of_N x.
Proof.
  induction (N.lt_wf_0 x) as [x _ IH]. intros s.
  destruct (decide (x = 0)%N) as [->|Hx].
  - exists "". by rewrite pretty_N_go_0.
  - rewrite pretty_N_go_step by lia.
    destruct (IH (x `div` 10)%N ltac:(apply N.div_lt; lia)
                (String (pretty_N_char (x `mod` 10)) s)) as (d & Hd & Hall & Hval).
    destruct (pretty_N_char_digit (x `mod` 10)%N
                ltac:(apply N.mod_lt; lia)) as [Hdig Hv].
    exists (d +:+ String (pretty_N_char (x `mod` 10)) "").
    split_and!.
    + by rewrite Hd, string_app_snoc.
    + rewrite allDigits_app, Hall. simpl. by rewrite Hdig.
    + rewrite decimal_app, Hval. simpl. rewrite Hv.
      pose proof (N.div_mod x 10 ltac:(lia)). lia.
Qed.

Lemma pretty_Z_digits (n : Z) :
  0 ≤ n → allDigits (pretty n) = true ∧ decimal 0 (pretty n) = n.
Proof.
  intros Hn. destruct n as [|p|p]; [done| |lia].
  unfold pretty, pretty_Z, pretty, pretty_positive, pretty, pretty_N.
  rewrite decide_False by done.
  destruct (pretty_N_go_digits (N.pos p) "") as (d & -> & Hall & Hval).
  by rewrite string_app_nil_r.
Qed.

Section RedirectionExtras.
Context `{U : Utils} `{K : Kernel}.

(** X20.  [history] with an argument does not put the standard streams
    back when it fails: with the output of the stage redirected to
    [fd], a call that returns [-1] has duplicated the standard output
    and put [fd] in its place, and, when that worked, closed [fd] and
    written the error message; the copy of the standard output is
    recorded and nothing restores it. *)
Theorem history_failure_keeps_redirection (invoke : Runner)
    (s s' : SimpleCommand) (st st' : St) (fd : Z) :
  argc s = 2%nat →
  inputFD s = STDIN_FD → outputFD s = fd → stderrFD s = STDERR_FD →
  fd ≠ STDOUT_FD →
  history invoke s st = Returned (-1, s', st') →
  ∃ saved r1 tail,
    originalStdoutFD (shell st') = saved ∧
    trace st' =
      trace st ++ [EvDup STDOUT_FD saved; EvDup2 fd STDOUT_FD r1] ++ tail ∧
    ((r1 = -1 ∧ tail = []) ∨
     (r1 ≠ -1 ∧ ∃ text, tail = [EvClose fd; EvPrint text])).
Proof.
  intros Hc Hin Hout Herr Hfd. unfold history.
  rewrite decide_False by lia.
  unfold setUpFD, bindStream. rewrite Hin, Hout, Herr. simpl.
  rewrite (decide_True (P := fd ≠ STDOUT_FD)) by done.
  unfold dup, dup2. simpl.
  destruct (sys_dup STDOUT_FD (world st)) as [saved w1]. simpl.
  destruct (sys_dup2 fd STDOUT_FD w1) as [r1 w2]. simpl.
  destruct (decide (r1 = -1)) as [->|Hr1]; simpl.
  - intros [= <- <-]. exists saved, (-1), []. simpl.
    split_and!; [done | by rewrite <- (assoc_L (++)) | by left].
  - rewrite decide_False by lia.
    intros Hrun. apply bind_returned in Hrun as (a & _ & Hrun).
    apply bind_returned in Hrun as (input & _ & Hrun).
    destruct input as [line|].
    + destruct (parseTokens _ _) as [commandChain st2].
      by apply bind_returned in Hrun as ([[status chain'] st3] & _ & Hrun).
    + injection Hrun as <- <-. exists saved, r1. eexists. simpl.
      split_and!; [done | by rewrite <- !(assoc_L (++)) |].
      right. split; [done|]. by eexists.
Qed.

Lemma parseItems_prefix rest :
  rest ≠ [] →
  ∀ its1 chain command s st,
    (parseItems (its1 ++ rest) chain command s st).1 = None ∨
    ∃ chain' command' s' st',
      parseItems (its1 ++ rest) chain command s st =
      parseItems rest chain' command' s' st'.
Proof.
  intros Hrest. induction its1 as [|it its1 IH]; intros chain command s st.
  - right. by exists chain, command, s, st.
  - destruct (isTerminator it) eqn:Hit.
    + destruct it as [t| | | | | |]; try done.
      rewrite <- app_comm_cons, parseItems_terminator by by destruct its1, rest.
      apply IH.
    + rewrite <- app_comm_cons, parseItems_step by done.
      destruct (stepItem it command s st) as [[[command' s']|] st1];
        [apply IH | by left].
Qed.

Lemma stepItem_output it command s st command' s' st' :
  isTerminator it = false →
  outputFD s ≠ STDOUT_FD →
  stepItem it command s st = (Some (command', s'), st') →
  outputFD s' ≠ STDOUT_FD.
Proof.
  intros Hit Hout.
  assert (Hredirect : ∀ file flags bind r st1,
    (∀ v, outputFD (bind v) = outputFD s) →
    redirect file flags bind st = (Some r, st1) → outputFD r ≠ STDOUT_FD).
  { intros file flags bind r st1 Hbind. unfold redirect.
    destruct file as [name|]; [|done]. destruct (open name flags st) as [v st2].
    case_decide; [done|]. intros [= <- _]. by rewrite Hbind. }
  destruct it as [t|t|t file|t file|t file|t|t]; simpl; try done.
  - destruct (commandName s); [|done]. by rewrite decide_True.
  - destruct (commandName s); [|done]. by rewrite decide_True.
  - case_decide; [done|].
    destruct (redirect file O_RDONLY _ st) as [[r|] st1] eqn:E; [|done].
    simpl. intros [= _ <- _]. eapply Hredirect; [|exact E]. done.
  - case_decide; [done|].
    destruct (redirect file O_WRONLY_CREAT_TRUNC _ st) as [[r|] st1] eqn:E; [|done].
    simpl. intros [= _ <- _]. eapply Hredirect; [|exact E]. done.
  - by intros [= _ <- _].
  - destruct (word t s st) as [r|] eqn:E; [|done]. simpl. intros [= _ <- _].
    apply word_spec in E as [(_ & Ho & _) _]. by rewrite Ho.
Qed.

Lemma output_bound_rejects second its2 mid :
  bindsOutput second = true →
  Forall (λ it, isTerminator it = false) mid →
  ∀ chain command s st,
    outputFD s ≠ STDOUT_FD →
    (parseItems (mid ++ second :: its2) chain command s st).1 = None.
Proof.
  intros Hsecond Hmid. induction mid as [|it mid IH]; intros chain command s st Hout.
  - destruct second as [t|t|t file|t file|t file|t|t]; try done; simpl;
      (destruct (commandName s); [|done]); by rewrite decide_True.
  - apply Forall_cons in Hmid as [Hit Hmid].
    rewrite <- app_comm_cons, parseItems_step by done.
    destruct (stepItem it command s st) as [[[command' s']|] st1] eqn:Hstep;
      [|done].
    apply IH; [done|]. by eapply stepItem_output.
Qed.

(** X21.  The output of a stage is bound at most once.  Where opening a
    file never gives the descriptor of the standard output, a line with
    an output redirection followed, before the next chaining operator,
    by a second output redirection or by a pipe operator is rejected. *)
Theorem output_bound_once (tokens : list string) (st : St)
    (its1 mid its2 : list Item) (t : string) (file : option string)
    (second : Item) :
  (∀ path flags w, (sys_open path flags w).1 ≠ STDOUT_FD) →
  items tokens = its1 ++ IOutput t file :: mid ++ second :: its2 →
  Forall (λ it, isTerminator it = false) mid →
  bindsOutput second = true →
  (parseTokens tokens st).1 = None.
Proof.
  intros Hopen Hits Hmid Hsecond. destruct tokens as [|t0 rest].
  - by destruct its1.
  - rewrite parseTokens_items, Hits.
    destruct (parseItems_prefix (IOutput t file :: mid ++ second :: its2)
                ltac:(done) its1 initCommandChain initCommand initSimpleCommand st)
      as [Hnone|(chain' & command' & s' & st1 & ->)]; [done|].
    rewrite parseItems_step by done. simpl.
    destruct (commandName s'); [|done]. case_decide; [done|].
    unfold redirect. destruct file as [name|]; [|done]. unfold open.
    pose proof (Hopen name
                  (if IS_APPEND t then O_WRONLY_CREAT_APPEND else O_WRONLY_CREAT_TRUNC)
                  (world st1)) as Hfd.
    destruct (sys_open name _ (world st1)) as [fileFD w]. simpl in Hfd.
    case_decide; [done|]. simpl.
    by apply output_bound_rejects.
Qed.

End RedirectionExtras.

(** X22.  The listing and the lookup agree: the number [history] writes
    beside an entry, given back to [history] as its argument, names that
    entry, in a store whose [size] counts its nodes and fits an [int]. *)
Theorem history_listing_round_trip (list : HistoryList) (k : nat)
    (entry : string) :
  store_ok list → size list ≤ INT_MAX →
  nodes list !! k = Some entry →
  lookupHistory list (pretty (Z.of_nat k + 1)) = Returned (Some entry).
Proof.
  intros Hok Hmax Hk.
  assert (Hlen : (k < length (nodes list))%nat) by by eapply lookup_lt_Some.
  destruct (pretty_Z_digits (Z.of_nat k + 1) ltac:(lia)) as [Hall Hval].
  unfold lookupHistory, atoi. rewrite Hall, Hval.
  destruct Hok as [Hsize Hfit].
  rewrite decide_True by lia. simpl.
  rewrite Z.mod_small by (unfold UINT_MODULUS, INT_MAX in *; lia).
  by rewrite (get_command_position list k entry).
Qed.

Module RedirectionSamples.
Import Platform.

Lemma open_above_standard (path : string) (flags : OpenFlags) (w : World) :
  (sys_open path flags w).1 ≠ STDOUT_FD.
Proof.
  simpl. unfold w_open, next_fd, STDOUT_FD.
  destruct flags; [destruct (token_in (files w) path)|..]; simpl; lia.
Qed.

Lemma history_failure_keeps_redirection_witness :
  ∃ st' saved r1 tail,
    history (call 0) (set_outputFD 3 (BuiltinSamples.stageOf ["history"; "7"]))
      (boot [] ["pwd"]) =
      Returned (-1, set_outputFD 3 (BuiltinSamples.stageOf ["history"; "7"]), st') ∧
    trace st' = [EvDup STDOUT_FD saved; EvDup2 3 STDOUT_FD r1] ++ tail.
Proof.
  pose (run := history (call 0)
                 (set_outputFD 3 (BuiltinSamples.stageOf ["history"; "7"]))
                 (boot [] ["pwd"])).
  let v := eval vm_compute in run in
  lazymatch v with
  | Returned (_, _, ?st1) =>
      assert (H : history (call 0)
                    (set_outputFD 3 (BuiltinSamples.stageOf ["history"; "7"]))
                    (boot [] ["pwd"]) =
                  Returned (-1,
                    set_outputFD 3 (BuiltinSamples.stageOf ["history"; "7"]), st1))
        by (vm_compute; reflexivity);
      exists st1
  end.
  assert (Hfd : 3 ≠ STDOUT_FD) by discriminate.
  destruct (history_failure_keeps_redirection (call 0)
              (set_outputFD 3 (BuiltinSamples.stageOf ["history"; "7"])) _
              (boot [] ["pwd"]) _ 3 eq_refl eq_refl eq_refl eq_refl Hfd H)
    as (saved & r1 & tail & _ & Htr & _).
  exists saved, r1, tail. split; [exact H | exact Htr].
Defined.

Lemma output_bound_once_witness :
  items ["ls"; ">"; "a"; "-l"; ">>"; "b"] =
    [IWord "ls"] ++ IOutput ">" (Some "a") :: [IWord "-l"] ++
    IOutput ">>" (Some "b") :: [] ∧
  (parseTokens ["ls"; ">"; "a"; "-l"; ">>"; "b"] (boot [] [])).1 = None.
Proof.
  assert (H : items ["ls"; ">"; "a"; "-l"; ">>"; "b"] =
              [IWord "ls"] ++ IOutput ">" (Some "a") :: [IWord "-l"] ++
              IOutput ">>" (Some "b") :: []) by reflexivity.
  split; [exact H|].
  apply (output_bound_once _ _ _ _ _ _ _ _ open_above_standard H);
    [by repeat constructor | reflexivity].
Defined.

Lemma history_listing_round_trip_witness :
  store_ok (mkHistoryList ["ls"; "pwd"] 2) ∧
  lookupHistory (mkHistoryList ["ls"; "pwd"] 2) "2" = Returned (Some "pwd").
Proof.
  assert (Hok : store_ok (mkHistoryList ["ls"; "pwd"] 2)).
  { split; [reflexivity | vm_compute; reflexivity]. }
  split; [exact Hok|].
  apply (history_listing_round_trip (mkHistoryList ["ls"; "pwd"] 2) 1 "pwd" Hok);
    [vm_compute; discriminate | reflexivity].
Defined.

End RedirectionSamples.
